(** * html-table-parser-node: header trees, key normalisation and row mapping

    A shallow embedding of [src/index.js] (class [HtmlTableParser]) and the
    properties of it that the specification states.

    Conventions of the embedding.
    - A JavaScript string is a Rocq [string]; a character is one code unit
      in the range U+0000 .. U+00FF.  Whitespace ([\s], and what
      [String.prototype.trim] strips) and [toLowerCase] are the ECMAScript
      ones restricted to that range.
    - A JavaScript number holding [parseInt]'s result is a [Z]; [NaN] is
      made explicit where the source tests for it.
    - A plain object is its table of own properties in the order in which
      they were first assigned, together with what it inherits from
      [Object.prototype].  (Enumeration would list integer-like keys
      first; nothing here depends on it.)
    - Code that mutates an object passed to it returns the mutated object. *)

From Stdlib Require Import ZArith Lia Bool Ascii String DecimalString DecimalNat.
From stdpp Require Import base list strings.

Local Open Scope string_scope.
Local Open Scope list_scope.
Local Open Scope Z_scope.

(** ** JavaScript string primitives *)

Module JsString.

(** The members of [\s] below U+0100: TAB, LF, VT, FF, CR, SPACE, NBSP. *)
Definition is_space (c : ascii) : bool :=
  let n := nat_of_ascii c in
  ((9 <=? n) && (n <=? 13) || (n =? 32) || (n =? 160))%nat.

(** [toLowerCase] on one code unit: A-Z, and U+00C0 .. U+00DE except the
    multiplication sign U+00D7, move up by 32. *)
Definition lower_char (c : ascii) : ascii :=
  let n := nat_of_ascii c in
  if ((65 <=? n) && (n <=? 90) || (192 <=? n) && (n <=? 222) && negb (n =? 215))%nat
  then ascii_of_nat (n + 32) else c.

Fixpoint toLowerCase (s : string) : string :=
  match s with
  | EmptyString => EmptyString
  | String c t => String (lower_char c) (toLowerCase t)
  end.

Fixpoint trimStart (s : string) : string :=
  match s with
  | EmptyString => EmptyString
  | String c t => if is_space c then trimStart t else s
  end.

Fixpoint trimEnd (s : string) : string :=
  match s with
  | EmptyString => EmptyString
  | String c t =>
      match trimEnd t with
      | EmptyString => if is_space c then EmptyString else String c EmptyString
      | t' => String c t'
      end
  end.

(** [s.trim()] *)
Definition trim (s : string) : string := trimEnd (trimStart s).

(** [s.replace(/\s\s+/g, ' ')]: every maximal run of two or more whitespace
    characters becomes one space.  [inRun] says that the previous character
    belongs to a run that was already replaced. *)
Fixpoint collapseFrom (inRun : bool) (s : string) : string :=
  match s with
  | EmptyString => EmptyString
  | String c t =>
      if is_space c then
        if inRun then collapseFrom true t
        else match t with
             | String d _ =>
                 if is_space d then String " " (collapseFrom true t)
                 else String c (collapseFrom false t)
             | EmptyString => String c EmptyString
             end
      else String c (collapseFrom false t)
  end.

Definition collapseWhitespace (s : string) : string := collapseFrom false s.

(** The replacement text of [String.prototype.replace] for a pattern
    without capture groups (ECMAScript GetSubstitution): [$$] is a dollar,
    [$&] the match, [$`] the text before it, [$'] the text after it; any
    other character, a dollar included, stands for itself. *)
Fixpoint getSubstitution (matched before after repl : string) : string :=
  match repl with
  | EmptyString => EmptyString
  | String c t =>
      if Ascii.eqb c "$" then
        match t with
        | String d t' =>
            if Ascii.eqb d "$" then String "$" (getSubstitution matched before after t')
            else if Ascii.eqb d "&" then matched +:+ getSubstitution matched before after t'
            else if Ascii.eqb d "`" then before +:+ getSubstitution matched before after t'
            else if Ascii.eqb d "'" then after +:+ getSubstitution matched before after t'
            else String c (getSubstitution matched before after t)
        | EmptyString => String c EmptyString
        end
      else String c (getSubstitution matched before after t)
  end.

(** [s.replace(/\s/g, repl)], scanning [s] with [before] the part of the
    subject already passed. *)
Fixpoint replaceFrom (repl before s : string) : string :=
  match s with
  | EmptyString => EmptyString
  | String c t =>
      if is_space c
      then getSubstitution (String c EmptyString) before t repl
             +:+ replaceFrom repl (before +:+ String c EmptyString) t
      else String c (replaceFrom repl (before +:+ String c EmptyString) t)
  end.

Definition replaceWhitespace (repl s : string) : string := replaceFrom repl "" s.

(** Template literal [`${i}`] for a non-negative integer. *)
Definition ofNat (n : nat) : string := NilEmpty.string_of_uint (Nat.to_uint n).

(** *** Shapes of strings used in the proofs *)

(** A string that [trim] leaves alone neither starts nor ends with
    whitespace. *)
Definition startClean (s : string) : bool :=
  match s with
  | EmptyString => true
  | String c _ => negb (is_space c)
  end.

Fixpoint endClean (s : string) : bool :=
  match s with
  | EmptyString => true
  | String c EmptyString => negb (is_space c)
  | String _ t => endClean t
  end.

Fixpoint noSpace (s : string) : bool :=
  match s with
  | EmptyString => true
  | String c t => negb (is_space c) && noSpace t
  end.

(** No two whitespace characters in a row: what [collapseWhitespace]
    leaves alone. *)
Fixpoint noRun (s : string) : bool :=
  match s with
  | EmptyString => true
  | String c t => (negb (is_space c) || startClean t) && noRun t
  end.

(** A replacement text that is taken literally. *)
Fixpoint noDollar (s : string) : bool :=
  match s with
  | EmptyString => true
  | String c t => negb (Ascii.eqb c "$") && noDollar t
  end.

End JsString.

(** ** Key normaliser ([_getHeaders], lines 44-48) *)

(** [opts.replace_whitespaces_keys]: a boolean or a string. *)
Inductive ReplaceOpt :=
| ReplaceBool (b : bool)
| ReplaceWith (repl : string).

Record Opts := mkOpts {
  trim_keys : bool;
  lowercase_keys : bool;
  remove_double_whitespaces : bool;
  replace_whitespaces_keys : ReplaceOpt
}.

(** The constructor's defaults. *)
Definition defaultOpts : Opts := mkOpts true true true (ReplaceBool true).

(** What [if (this.opts.replace_whitespaces_keys)] lets through, with the
    replacement text that line 48 then uses: [true] gives an underscore,
    the empty string is falsy. *)
Definition replacementOf (r : ReplaceOpt) : option string :=
  match r with
  | ReplaceBool true => Some "_"
  | ReplaceBool false => None
  | ReplaceWith EmptyString => None
  | ReplaceWith repl => Some repl
  end.

Definition normalizeKey (opts : Opts) (text : string) : string :=
  let name := text in
  let name := if trim_keys opts then JsString.trim name else name in
  let name := if lowercase_keys opts then JsString.toLowerCase name else name in
  let name := if remove_double_whitespaces opts then JsString.collapseWhitespace name else name in
  let name := match replacementOf (replace_whitespaces_keys opts) with
              | Some repl => JsString.replaceWhitespace repl name
              | None => name
              end in
  name.

(** ** The table as the HTML layer hands it over

    The rows of a table in document order, grouped by where they lie: in a
    [thead], a [tbody] or a [tfoot], or directly under the table element
    ([Bare]; the HTML5 algorithm, which [cheerio.load] uses by default,
    wraps such rows in a [tbody], so that a parsed document has none).  A
    cell carries its tag, its text content and the value of [parseInt] on
    its [colspan] attribute ([None] stands for [NaN]: attribute absent or
    not a number).  Tables nested inside cells are outside the model. *)

Inductive CellTag := TH | TD.

Record Cell := mkCell {
  cell_tag : CellTag;
  cell_text : string;
  cell_colspan : option Z
}.

Inductive SectionKind := THead | TBody | TFoot | Bare.

Record TableSection := mkSection {
  sec_kind : SectionKind;
  sec_rows : list (list Cell)
}.

Abbreviation Table := (list TableSection).

Definition is_th (c : Cell) : bool :=
  match cell_tag c with TH => true | TD => false end.

Definition is_kind (k : SectionKind) (s : TableSection) : bool :=
  match k, sec_kind s with
  | THead, THead | TBody, TBody | TFoot, TFoot | Bare, Bare => true
  | _, _ => false
  end.

(** [$table.find(sel).find('tr')] for a section selector, and
    [$table.find('tr')]. *)
Definition rowsOf (k : SectionKind) (t : Table) : list (list Cell) :=
  concat (map sec_rows (filter (fun s => is_kind k s = true) t)).

Definition allRows (t : Table) : list (list Cell) := concat (map sec_rows t).

(** ** Header cells *)

Unset Elimination Schemes.
Inductive HeaderCell := mkHeader {
  name : string;
  remainingSubheaders : Z;
  subheaders : list HeaderCell
}.
Set Elimination Schemes.

(** Induction over a header with all its subheaders. *)
Section HeaderCellInd.
Variable P : HeaderCell -> Prop.
Hypothesis step : forall n r subs, Forall P subs -> P (mkHeader n r subs).

Fixpoint header_ind (h : HeaderCell) : P h :=
  match h with
  | mkHeader n r subs =>
      step n r subs
        ((fix all (l : list HeaderCell) : Forall P l :=
            match l with
            | [] => @List.Forall_nil _ P
            | x :: rest => @List.Forall_cons _ P x rest (header_ind x) (all rest)
            end) subs)
  end.
End HeaderCellInd.

(** [x || 0] on the result of [parseInt]. *)
Definition orZero (x : option Z) : Z :=
  match x with
  | Some z => if z =? 0 then 0 else z
  | None => 0
  end.

(** Lines 39-40. *)
Definition headerRows (t : Table) : list (list Cell) :=
  match rowsOf THead t with
  | [] => take 1 (allRows t)
  | hr => hr
  end.

(** Lines 42-55: one row of fresh header cells. *)
Definition headerGroupOf (opts : Opts) (tr : list Cell) : list HeaderCell :=
  map (fun th => mkHeader (normalizeKey opts (cell_text th))
                          (orZero (cell_colspan th)) [])
      (filter (fun c => is_th c = true) tr).

(** [header.subheaders.length || 1] *)
Definition lengthOrOne (subs : list HeaderCell) : Z :=
  match subs with
  | [] => 1
  | _ => Z.of_nat (length subs)
  end.

(** Lines 69-76, the loop over [k]: the first parent that passes the test
    of line 71 takes [header]; [None] when the loop ends without [break]. *)
Fixpoint scanParents (header : HeaderCell) (parentHeaderGroup : list HeaderCell)
  : option (list HeaderCell) :=
  match parentHeaderGroup with
  | [] => None
  | parentHeader :: rest =>
      if remainingSubheaders parentHeader =? 0
      then cons parentHeader <$> scanParents header rest
      else Some (mkHeader (name parentHeader)
                          (remainingSubheaders parentHeader - lengthOrOne (subheaders header))
                          (subheaders parentHeader ++ [header])
                 :: rest)
  end.

(** Lines 67-77, the loop over [j].  [delete headerGroup[j]] leaves a hole,
    here [None]. *)
Fixpoint absorbGroup (headerGroup parentHeaderGroup : list HeaderCell)
  : list (option HeaderCell) * list HeaderCell :=
  match headerGroup with
  | [] => ([], parentHeaderGroup)
  | header :: rest =>
      match scanParents header parentHeaderGroup with
      | Some parents' =>
          let '(group', parents'') := absorbGroup rest parents' in
          (None :: group', parents'')
      | None =>
          let '(group', parents'') := absorbGroup rest parentHeaderGroup in
          (Some header :: group', parents'')
      end
  end.

(** Lines 61-78, the loop over [i] from the last row down to 1.  The passes
    for the rows below [first] run before the pass that hands the row right
    under [first] to it; a row has no hole until its own pass, so the
    groups that a pass reads are full.  The result is row 0 and the rows
    under it, holes included. *)
Fixpoint absorbRows (first : list HeaderCell) (below : list (list HeaderCell))
  : list HeaderCell * list (list (option HeaderCell)) :=
  match below with
  | [] => (first, [])
  | next :: below' =>
      let '(next', rows') := absorbRows next below' in
      let '(group', first') := absorbGroup next' first in
      (first', group' :: rows')
  end.

(** Lines 80-86: what is left in each group, in row order. *)
Definition combineGroups (headers : list (list (option HeaderCell))) : list HeaderCell :=
  concat (map (omap id) headers).

Definition buildHeaders (groups : list (list HeaderCell)) : list HeaderCell :=
  match groups with
  | [] => []
  | first :: below =>
      let '(first', rows') := absorbRows first below in
      first' ++ combineGroups rows'
  end.

Definition getHeaders (opts : Opts) (t : Table) : list HeaderCell :=
  buildHeaders (map (headerGroupOf opts) (headerRows t)).

(** ** Row extractor (lines 92-105) *)

Definition getRows (t : Table) : list (list string) :=
  map (fun tr => map (fun td => JsString.trim (cell_text td)) tr) (rowsOf TBody t).

(** ** Records: plain JavaScript objects *)

Unset Elimination Schemes.
Inductive Value :=
| VUndefined
| VString (s : string)
| VObject (props : list (string * Value)).
Set Elimination Schemes.

(** The own properties of an object, each key once, in the order in
    which the keys were first assigned.  JavaScript enumerates the keys
    that are array indices (["0"], ["2019"]) before the others, so this
    order is that of the assignments, not always that of [Object.keys];
    what a record holds is read through [getOwn], key by key. *)
Abbreviation Obj := (list (string * Value)).

(** An element of a flat row: a cell's text, or [undefined]. *)
Inductive RowItem :=
| Text (s : string)
| Undefined.

Definition valueOf (x : RowItem) : Value :=
  match x with
  | Text s => VString s
  | Undefined => VUndefined
  end.

Module JsObject.

(** The property names of [Object.prototype]. *)
Definition inheritedNames : list string :=
  [ "constructor"; "__defineGetter__"; "__defineSetter__"; "hasOwnProperty";
    "__lookupGetter__"; "__lookupSetter__"; "isPrototypeOf";
    "propertyIsEnumerable"; "toString"; "valueOf"; "__proto__";
    "toLocaleString" ].

Definition inherited (k : string) : bool :=
  existsb (String.eqb k) inheritedNames.

Fixpoint getOwn (o : Obj) (k : string) : option Value :=
  match o with
  | [] => None
  | (k', v) :: rest => if String.eqb k k' then Some v else getOwn rest k
  end.

Definition truthy (v : Value) : bool :=
  match v with
  | VUndefined => false
  | VString EmptyString => false
  | VString _ => true
  | VObject _ => true
  end.

(** Whether [o[k]] is truthy.  [__proto__] reads the prototype, an object
    (no assignment can make it an own property).  Elsewhere an own property
    shadows an inherited one, and every method that [Object.prototype]
    provides is truthy. *)
Definition truthyAt (o : Obj) (k : string) : bool :=
  if String.eqb k "__proto__" then true
  else match getOwn o k with
       | Some v => truthy v
       | None => inherited k
       end.

Fixpoint setOwn (o : Obj) (k : string) (v : Value) : Obj :=
  match o with
  | [] => [(k, v)]
  | (k', v') :: rest =>
      if String.eqb k k' then (k', v) :: rest else (k', v') :: setOwn rest k v
  end.

(** [o[k] = v].  Every property of [Object.prototype] is a writable data
    property, so the assignment makes or updates an own property, except
    under [__proto__]: that one is an accessor, whose setter ignores a
    value that is not an object.  (It would take an object as the new
    prototype; the row mapper never assigns one there: line 114 runs
    with a name at which [o] is falsy, see [freshName_falsy].) *)
Definition set (o : Obj) (k : string) (v : Value) : Obj :=
  if String.eqb k "__proto__" then o else setOwn o k v.

End JsObject.

(** ** Row mapper (lines 108-128) *)

(** [row.shift()] *)
Definition shift (row : list RowItem) : Value * list RowItem :=
  match row with
  | [] => (VUndefined, [])
  | x :: rest => (valueOf x, rest)
  end.

(** Line 113: [for (let i = 0; fullHeaders[header.name]; i++)
    header.name += `_${i++}`].  The body uses [i] and increments it, and
    the loop header increments it again.  [fuel] bounds the number of
    iterations. *)
Fixpoint renameLoop (fuel : nat) (fullHeaders : Obj) (name : string) (i : nat) : string :=
  match fuel with
  | O => name
  | S fuel' =>
      if JsObject.truthyAt fullHeaders name
      then renameLoop fuel' fullHeaders (name +:+ "_" +:+ JsString.ofNat i) (i + 2)
      else name
  end.

(** Each iteration lengthens the name, and only finitely many names are
    truthy in an object, so this much fuel lets the loop end by its own
    test ([freshName_falsy]). *)
Definition freshName (fullHeaders : Obj) (name : string) : string :=
  renameLoop (S (length fullHeaders + length JsObject.inheritedNames))
             fullHeaders name 0.

(** Lines 110-120.  The call returns the headers (line 113 changes their
    names), the object it filled and the rest of the row.  The record for
    the subheaders is built in the object that line 114 has just stored
    under the header's name; here it is stored once it is complete. *)
Fixpoint mapHeader (header : HeaderCell) (fullHeaders : Obj) (row : list RowItem)
  : HeaderCell * Obj * list RowItem :=
  match subheaders header with
  | [] =>
      let '(v, row') := shift row in
      (header, JsObject.set fullHeaders (name header) v, row')
  | subs =>
      let name' := freshName fullHeaders (name header) in
      let '(subs', nested, row') :=
        (fix mapAll (headers : list HeaderCell) (o : Obj) (row : list RowItem) :=
           match headers with
           | [] => ([], o, row)
           | h :: rest =>
               let '(h', o', row') := mapHeader h o row in
               let '(rest', o'', row'') := mapAll rest o' row' in
               (h' :: rest', o'', row'')
           end) subs [] row in
      (mkHeader name' (remainingSubheaders header) subs',
       JsObject.set fullHeaders name' (VObject nested), row')
  end.

Fixpoint mapHeaders (headers : list HeaderCell) (fullHeaders : Obj) (row : list RowItem)
  : list HeaderCell * Obj * list RowItem :=
  match headers with
  | [] => ([], fullHeaders, row)
  | h :: rest =>
      let '(h', o', row') := mapHeader h fullHeaders row in
      let '(rest', o'', row'') := mapHeaders rest o' row' in
      (h' :: rest', o'', row'')
  end.

(** The template literal [`unlabelled_${i}`] of line 124. *)
Definition unlabelled (i : nat) : string := "unlabelled_" +:+ JsString.ofNat i.

(** Lines 123-125, from index [i] on. *)
Fixpoint addUnlabelled (mappedRow : Obj) (i : nat) (row : list RowItem) : Obj :=
  match row with
  | [] => mappedRow
  | x :: rest =>
      addUnlabelled (JsObject.set mappedRow (unlabelled i) (valueOf x))
                    (S i) rest
  end.

(** [_mapRowToHeaders]: the record, and the headers and the row as the call
    leaves them. *)
Definition mapRowToHeaders (combinedHeaders : list HeaderCell) (row : list RowItem)
  : Obj * list HeaderCell * list RowItem :=
  let '(headers', mappedRow, row') := mapHeaders combinedHeaders [] row in
  (addUnlabelled mappedRow 0 row', headers', row').

(** [_mapRowsToHeaders]: the rows are mapped in order against the same
    header objects. *)
Fixpoint mapRowsToHeaders (headers : list HeaderCell) (rows : list (list RowItem))
  : list Obj :=
  match rows with
  | [] => []
  | row :: rest =>
      let '(mappedRow, headers', _) := mapRowToHeaders headers row in
      mappedRow :: mapRowsToHeaders headers' rest
  end.

(** [_parseTable] *)
Definition parseTable (opts : Opts) (t : Table) : list Obj :=
  mapRowsToHeaders (getHeaders opts t) (map (map Text) (getRows t)).

(** ** Notions used to state the properties *)

(** A replacement under which normalising twice is the same as once: a
    boolean, or a text that is taken literally, holds no whitespace and,
    when keys are lower-cased, is in lower case. *)
Definition stableReplacement (opts : Opts) : Prop :=
  match replace_whitespaces_keys opts with
  | ReplaceBool _ => True
  | ReplaceWith repl =>
      JsString.noDollar repl = true /\ JsString.noSpace repl = true /\
      (lowercase_keys opts = true -> JsString.toLowerCase repl = repl)
  end.

(** The table with the tag of every cell replaced. *)
Definition retag (f : Cell -> CellTag) (t : Table) : Table :=
  map (fun s => mkSection (sec_kind s)
                  (map (map (fun c => mkCell (f c) (cell_text c) (cell_colspan c)))
                       (sec_rows s))) t.

(** The trimmed texts of the cells of a row, whatever their tags. *)
Definition textsOf (tr : list Cell) : list string :=
  map (fun c => JsString.trim (cell_text c)) tr.

Definition hasNoThead (t : Table) : Prop :=
  Forall (fun s => sec_kind s <> THead) t.

(** The number of headers without subheaders in a tree, in a forest. *)
Fixpoint leafCount (h : HeaderCell) : nat :=
  match subheaders h with
  | [] => 1%nat
  | subs =>
      (fix sumAll (l : list HeaderCell) : nat :=
         match l with
         | [] => 0%nat
         | x :: rest => (leafCount x + sumAll rest)%nat
         end) subs
  end.

Fixpoint leafCounts (hs : list HeaderCell) : nat :=
  match hs with
  | [] => 0%nat
  | h :: rest => (leafCount h + leafCounts rest)%nat
  end.

(** The same header with every [remainingSubheaders] set to zero. *)
Fixpoint eraseSpans (h : HeaderCell) : HeaderCell :=
  mkHeader (name h) 0 (map eraseSpans (subheaders h)).

(** The same header without the names of the headers that have
    subheaders: what line 113 cannot change. *)
Fixpoint skeleton (h : HeaderCell) : HeaderCell :=
  match subheaders h with
  | [] => h
  | subs => mkHeader "" (remainingSubheaders h) (map skeleton subs)
  end.


(** The names at which an object can be truthy: its own keys and the
    names it inherits; and how many of a list of names have at least a
    given length (the measure that bounds the loop of line 113). *)
Definition candidates (o : Obj) : list string :=
  (map fst o ++ JsObject.inheritedNames)%list.

Fixpoint countLonger (len : nat) (names : list string) : nat :=
  match names with
  | [] => 0%nat
  | k :: rest =>
      if (len <=? String.length k)%nat then S (countLonger len rest)
      else countLonger len rest
  end.

(** Headers holding three sibling headers of the same name, each with a
    subheader. *)
Definition threeSiblings : list HeaderCell :=
  [ mkHeader "x" 0 [mkHeader "c" 0 []];
    mkHeader "x" 0 [mkHeader "d" 0 []];
    mkHeader "x" 0 [mkHeader "e" 0 []] ].

(** A header without subheaders followed by a header of the same name
    that has one. *)
Definition leafThenNode : list HeaderCell :=
  [ mkHeader "x" 0 []; mkHeader "x" 0 [mkHeader "c" 0 []] ].

(** *** The header-tree rule in the specification's words

    [specAttach eligible header parents]: find the first parent whose
    remaining span is [eligible]; if there is one, lower its remaining span
    by the maximum of 1 and the number of [header]'s children and append
    [header] to its children.  [specAbsorbRow] does this for the cells of a
    row in order, marking a cell that found a parent as removed and leaving
    the others in place.  [specLevels] goes through the rows from the last
    to the first, each row taking in the cells of the row under it. *)
Definition specAttach (eligible : Z -> bool) (header : HeaderCell)
    (parents : list HeaderCell) : option (list HeaderCell) :=
  match list_find (fun p => eligible (remainingSubheaders p) = true) parents with
  | Some (k, parent) =>
      Some (<[k := mkHeader (name parent)
                     (remainingSubheaders parent
                      - Z.max 1 (Z.of_nat (length (subheaders header))))
                     (subheaders parent ++ [header])]> parents)
  | None => None
  end.

Definition specAbsorbRow (eligible : Z -> bool) (row parents : list HeaderCell)
  : list (option HeaderCell) * list HeaderCell :=
  foldl (fun '(marked, parents) header =>
           match specAttach eligible header parents with
           | Some parents' => (marked ++ [None], parents')
           | None => (marked ++ [Some header], parents)
           end)
        ([], parents) row.

Definition specLevels (eligible : Z -> bool) (groups : list (list HeaderCell))
  : option (list HeaderCell * list (list (option HeaderCell))) :=
  foldr (fun row under =>
           match under with
           | None => Some (row, [])
           | Some (rowUnder, done) =>
               let '(marked, row') := specAbsorbRow eligible rowUnder row in
               Some (row', marked :: done)
           end)
        None groups.

Definition specBuild (eligible : Z -> bool) (groups : list (list HeaderCell))
  : list HeaderCell :=
  match specLevels eligible groups with
  | None => []
  | Some (top, done) => top ++ concat (map (omap id) done)
  end.

(** The test as the specification words it, and as line 71 has it. *)
Definition positive (z : Z) : bool := 0 <? z.
Definition nonZero (z : Z) : bool := negb (z =? 0).

(** Fresh header cells for declared (name, span) pairs. *)
Definition declared (cells : list (string * Z)) : list HeaderCell :=
  map (fun c => mkHeader c.1 c.2 []) cells.

(** Three header rows: [b] spans two columns under [a], which spans one. *)
Definition overdrawn : list (list (string * Z)) :=
  [ [("a", 1)]; [("b", 2); ("e", 0)]; [("c", 0); ("d", 0)] ].

(** No header of the tree has a negative [remainingSubheaders]. *)
Fixpoint spansNonNeg (h : HeaderCell) : bool :=
  (0 <=? remainingSubheaders h) && forallb spansNonNeg (subheaders h).

(** A fresh cell with a span that is not negative. *)
Definition freshNonNeg (h : HeaderCell) : Prop :=
  subheaders h = [] /\ 0 <= remainingSubheaders h.

(** The rows that are neither the first nor the last. *)
Definition middleRows {A : Type} (rows : list A) : list A :=
  removelast (tail rows).

(** A table without a header section: a header row and a data row. *)
Definition sampleTable : Table :=
  [mkSection TBody [[mkCell TH "a" None]; [mkCell TD "1" None]]].

(** ** Notions used to state further properties of the code *)

(** The names of a header and of all the headers under it, parents
    first. *)
Fixpoint cellNames (h : HeaderCell) : list string :=
  name h :: flat_map cellNames (subheaders h).

(** The number of levels of a header tree. *)
Fixpoint depth (h : HeaderCell) : nat :=
  S (foldr (fun c m => Nat.max (depth c) m) 0%nat (subheaders h)).

(** The cells of a row dealt out to the row above it, from the left: each
    parent takes as many of the cells still left as its remaining span
    says. *)
Fixpoint dealOut (parents cells : list HeaderCell) : list HeaderCell * list HeaderCell :=
  match parents with
  | [] => ([], cells)
  | p :: ps =>
      let mine := take (Z.to_nat (remainingSubheaders p)) cells in
      let '(ps', unplaced) := dealOut ps (drop (Z.to_nat (remainingSubheaders p)) cells) in
      (mkHeader (name p) (remainingSubheaders p - Z.of_nat (length mine))
                (subheaders p ++ mine) :: ps',
       unplaced)
  end.

(** What all the cells of a row cost the parent that takes them. *)
Fixpoint totalCharge (cells : list HeaderCell) : Z :=
  match cells with
  | [] => 0
  | c :: rest => lengthOrOne (subheaders c) + totalCharge rest
  end.

(** The value that the [i]-th header without subheaders receives. *)
Definition valueAt (row : list RowItem) (i : nat) : Value :=
  match row !! i with
  | Some x => valueOf x
  | None => VUndefined
  end.

(** Headers that line 113 has no reason to rename: the names of sibling
    headers differ, and no header that has subheaders bears a name that
    every object inherits. *)
Definition plainLevel (hs : list HeaderCell) : bool :=
  bool_decide (NoDup (map name hs))
  && forallb (fun h => match subheaders h with
                       | [] => true
                       | _ => negb (JsObject.inherited (name h))
                       end) hs.

Fixpoint plainTree (h : HeaderCell) : bool :=
  plainLevel (subheaders h) && forallb plainTree (subheaders h).

Definition plainForest (hs : list HeaderCell) : bool :=
  plainLevel hs && forallb plainTree hs.

(** [parseAllTables] (lines 150-160): the tables of the document, in
    document order, each parsed on its own. *)
Definition parseAllTables (opts : Opts) (tables : list Table) : list (list Obj) :=
  map (parseTable opts) tables.

(** [parseTable(selector)] (lines 168-172).  [$(selector)] is the set of
    the elements that match, in document order, and every [find] of
    [_getHeaders] and [_getRows] then runs over all of them together: the
    call parses what the matched tables hold as if it were one table. *)
Definition parseTableSelected (opts : Opts) (matched : list Table) : list Obj :=
  parseTable opts (concat matched).

(** The normalised names of the header cells ([th]) of a row. *)
Definition headerNamesOf (opts : Opts) (tr : list Cell) : list string :=
  map (fun c => normalizeKey opts (cell_text c)) (filter (fun c => is_th c = true) tr).

(** The record of a row that no header labels. *)
Definition unlabelledRecord (texts : list string) : Obj :=
  imap (fun i s => (unlabelled i, VString s)) texts.

(** A table of data cells only. *)
Definition plainTable : Table :=
  [mkSection TBody [ [mkCell TD "p" None; mkCell TD " q " None];
                     [mkCell TD "r" None] ]].

(** The record that mirrors a header tree: a header without subheaders
    with the value at its place in the row, a header with subheaders with
    the record of its subheaders; the headers take their values from the
    row in the order of the tree, left to right. *)
Fixpoint recordEntry (h : HeaderCell) (row : list RowItem) : string * Value :=
  match subheaders h with
  | [] => (name h, valueAt row 0)
  | subs =>
      (name h,
       VObject ((fix entries (l : list HeaderCell) (row : list RowItem) : Obj :=
                   match l with
                   | [] => []
                   | x :: rest => recordEntry x row :: entries rest (drop (leafCount x) row)
                   end) subs row))
  end.

Fixpoint recordEntries (hs : list HeaderCell) (row : list RowItem) : Obj :=
  match hs with
  | [] => []
  | h :: rest => recordEntry h row :: recordEntries rest (drop (leafCount h) row)
  end.

(** No header of the tree is named [k]. *)
Fixpoint namesAvoid (k : string) (h : HeaderCell) : bool :=
  negb (String.eqb (name h) k) && forallb (namesAvoid k) (subheaders h).

(** ** Notions used to say what a record holds *)

(** The value that a record holds at the end of a path of keys: what
    [record[k1][k2]...] reads. *)
Fixpoint lookupPath (o : Obj) (path : list string) : option Value :=
  match path with
  | [] => None
  | k :: rest =>
      match rest with
      | [] => JsObject.getOwn o k
      | _ => match JsObject.getOwn o k with
             | Some (VObject nested) => lookupPath nested rest
             | _ => None
             end
      end
  end.

(** The paths from a root to the headers without subheaders under it, in
    the order of the tree. *)
Fixpoint leafPathsOf (h : HeaderCell) : list (list string) :=
  match subheaders h with
  | [] => [[name h]]
  | subs => map (cons (name h)) (flat_map leafPathsOf subs)
  end.

Definition leafPaths (hs : list HeaderCell) : list (list string) :=
  flat_map leafPathsOf hs.

(** A header cell that spans two columns, followed by a plain one. *)
Definition spanningRow : list Cell :=
  [mkCell TH "A" (Some 2); mkCell TH "B" None].

(** * Properties *)

Example normalize_default :
  normalizeKey defaultOpts "  First   Name " = "first_name".
Proof. reflexivity. Qed.

Example normalize_upper_repl :
  let o := mkOpts true true true (ReplaceWith "A") in
  normalizeKey o "x y" = "xAy" /\ normalizeKey o "xAy" = "xay".
Proof. split; reflexivity. Qed.


(** ** Strings *)

Module JsStringFacts.
Import JsString.

Lemma is_space_lower c : is_space (lower_char c) = is_space c.
Proof. destruct c as [[] [] [] [] [] [] [] []]; reflexivity. Qed.

Lemma lower_char_idem c : lower_char (lower_char c) = lower_char c.
Proof. destruct c as [[] [] [] [] [] [] [] []]; reflexivity. Qed.

Lemma toLowerCase_idem s : toLowerCase (toLowerCase s) = toLowerCase s.
Proof. induction s as [|c t IH]; simpl; [done|]. by rewrite lower_char_idem, IH. Qed.

Lemma toLowerCase_app s t : toLowerCase (s +:+ t) = toLowerCase s +:+ toLowerCase t.
Proof. induction s as [|c s IH]; simpl; [done|]. by rewrite IH. Qed.

Lemma trimStart_clean s : startClean s = true -> trimStart s = s.
Proof. destruct s as [|c t]; simpl; [done|]. by destruct (is_space c). Qed.

Lemma startClean_trimStart s : startClean (trimStart s) = true.
Proof.
  induction s as [|c t IH]; simpl; [done|].
  destruct (is_space c) eqn:E; [done|]. simpl. by rewrite E.
Qed.

Lemma endClean_cons c t : t <> "" -> endClean (String c t) = endClean t.
Proof. by destruct t. Qed.

Lemma trimEnd_clean s : endClean s = true -> trimEnd s = s.
Proof.
  induction s as [|c t IH]; [done|].
  destruct t as [|d t'].
  - simpl. by destruct (is_space c).
  - intros H. rewrite endClean_cons in H by done.
    change (trimEnd (String c (String d t')))
      with (match trimEnd (String d t') with
            | EmptyString => if is_space c then EmptyString else String c EmptyString
            | t0 => String c t0
            end).
    by rewrite (IH H).
Qed.

Lemma endClean_trimEnd s : endClean (trimEnd s) = true.
Proof.
  induction s as [|c t IH]; [done|]. simpl.
  destruct (trimEnd t) as [|d t'] eqn:E.
  - destruct (is_space c) eqn:Ec; simpl; [done|]. by rewrite Ec.
  - by rewrite endClean_cons.
Qed.

Lemma startClean_trimEnd s : startClean s = true -> startClean (trimEnd s) = true.
Proof.
  destruct s as [|c t]; simpl; [done|]. intros H.
  destruct (trimEnd t); [|done].
  destruct (is_space c) eqn:E; [done|]. simpl. by rewrite E.
Qed.

Lemma trim_clean s : startClean s = true -> endClean s = true -> trim s = s.
Proof. intros H1 H2. unfold trim. by rewrite trimStart_clean, trimEnd_clean. Qed.

Lemma trim_is_clean s : startClean (trim s) = true /\ endClean (trim s) = true.
Proof.
  unfold trim. split; [|apply endClean_trimEnd].
  apply startClean_trimEnd, startClean_trimStart.
Qed.

Lemma noSpace_clean s : noSpace s = true -> startClean s = true /\ endClean s = true.
Proof.
  induction s as [|c t IH]; [done|]. simpl.
  intros [Hc Ht]%andb_true_iff. split; [done|].
  destruct t; [done|]. by apply IH.
Qed.

Lemma startClean_lower s : startClean (toLowerCase s) = startClean s.
Proof. destruct s; simpl; [done|]. by rewrite is_space_lower. Qed.

Lemma endClean_lower s : endClean (toLowerCase s) = endClean s.
Proof.
  induction s as [|c t IH]; [done|].
  destruct t as [|d t']; simpl; [by rewrite is_space_lower|].
  exact IH.
Qed.

Lemma collapseFrom_lower b s :
  toLowerCase (collapseFrom b s) = collapseFrom b (toLowerCase s).
Proof.
  revert b. induction s as [|c t IH]; intros b; [done|].
  simpl. rewrite is_space_lower.
  destruct (is_space c) eqn:Ec.
  - destruct b; [apply IH|].
    destruct t as [|d t']; [done|].
    cbn [toLowerCase]. rewrite is_space_lower.
    destruct (is_space d) eqn:Ed.
    + cbn [toLowerCase]. f_equal. apply (IH true).
    + cbn [toLowerCase]. f_equal. apply (IH false).
  - simpl. f_equal. apply IH.
Qed.

Lemma startClean_collapse s :
  startClean s = true -> startClean (collapseWhitespace s) = true.
Proof.
  destruct s as [|c t]; [done|]. unfold collapseWhitespace. simpl.
  destruct (is_space c) eqn:E; [done|]. intros _. simpl. by rewrite E.
Qed.

Lemma collapseFrom_nonempty b s :
  s <> "" -> endClean s = true -> collapseFrom b s <> "".
Proof.
  revert b. induction s as [|c t IH]; intros b Hne H; [done|].
  destruct t as [|d t'].
  - simpl in *. by destruct (is_space c).
  - rewrite endClean_cons in H by done.
    change (collapseFrom b (String c (String d t'))) with
      (if is_space c then
         if b then collapseFrom true (String d t')
         else if is_space d then String " " (collapseFrom true (String d t'))
              else String c (collapseFrom false (String d t'))
       else String c (collapseFrom false (String d t'))).
    destruct (is_space c), b; try done; [by apply IH|].
    by destruct (is_space d).
Qed.

Lemma endClean_collapseFrom b s :
  endClean s = true -> endClean (collapseFrom b s) = true.
Proof.
  revert b. induction s as [|c t IH]; intros b H; [done|].
  destruct t as [|d t'].
  - simpl in *. destruct (is_space c) eqn:E; [done|]. simpl. by rewrite E.
  - rewrite endClean_cons in H by done.
    assert (Hn : forall b', collapseFrom b' (String d t') <> "")
      by (intros b'; by apply collapseFrom_nonempty).
    change (collapseFrom b (String c (String d t'))) with
      (if is_space c then
         if b then collapseFrom true (String d t')
         else if is_space d then String " " (collapseFrom true (String d t'))
              else String c (collapseFrom false (String d t'))
       else String c (collapseFrom false (String d t'))).
    destruct (is_space c), b.
    + by apply IH.
    + destruct (is_space d); rewrite endClean_cons by apply Hn; by apply IH.
    + rewrite endClean_cons by apply Hn. by apply IH.
    + rewrite endClean_cons by apply Hn. by apply IH.
Qed.

Lemma collapse_noRun s : noRun s = true -> collapseFrom false s = s.
Proof.
  induction s as [|c t IH]; [done|]. simpl.
  intros [Hc Ht]%andb_true_iff.
  destruct (is_space c) eqn:Ec.
  - destruct t as [|d t']; [done|].
    simpl in Hc. apply negb_true_iff in Hc. rewrite Hc.
    f_equal. by apply IH.
  - f_equal. by apply IH.
Qed.

Lemma collapseFrom_shape b s :
  noRun (collapseFrom b s) = true /\
  (b = true \/ startClean s = true -> startClean (collapseFrom b s) = true).
Proof.
  revert b. induction s as [|c t IH]; intros b; [done|].
  destruct (IH true) as [IHt1 IHt2], (IH false) as [IHf1 IHf2].
  simpl. destruct (is_space c) eqn:Ec.
  - destruct b.
    + split; [done|]. intros _. by apply IHt2; left.
    + destruct t as [|d t'].
      * simpl. rewrite Ec. split; [done|]. by intros [|].
      * destruct (is_space d) eqn:Ed.
        -- split; [|by intros [|]].
           cbn [noRun]. rewrite IHt1, (IHt2 (or_introl eq_refl)).
           by rewrite orb_true_r.
        -- split; [|by intros [|]].
           cbn [noRun]. rewrite IHf1, IHf2; [by rewrite orb_true_r|].
           right. simpl. by rewrite Ed.
  - split.
    + cbn [noRun]. by rewrite Ec, IHf1.
    + intros _. simpl. by rewrite Ec.
Qed.

Lemma collapse_idem s :
  collapseWhitespace (collapseWhitespace s) = collapseWhitespace s.
Proof. unfold collapseWhitespace. apply collapse_noRun, collapseFrom_shape. Qed.

Lemma noSpace_noRun s : noSpace s = true -> noRun s = true.
Proof.
  induction s as [|c t IH]; [done|]. simpl.
  intros [Hc Ht]%andb_true_iff. rewrite Hc. by apply IH.
Qed.

Lemma noSpace_app s t : noSpace (s +:+ t) = noSpace s && noSpace t.
Proof. induction s as [|c s IH]; simpl; [done|]. by rewrite IH, andb_assoc. Qed.

Lemma getSubstitution_literal m b a r :
  noDollar r = true -> getSubstitution m b a r = r.
Proof.
  induction r as [|c t IH]; [done|]. simpl.
  intros [Hc Ht]%andb_true_iff. apply negb_true_iff in Hc. rewrite Hc.
  f_equal. by apply IH.
Qed.

Lemma replaceFrom_noSpace_out r b s :
  noDollar r = true -> noSpace r = true -> noSpace (replaceFrom r b s) = true.
Proof.
  intros Hd Hr. revert b. induction s as [|c t IH]; intros b; [done|]. simpl.
  destruct (is_space c) eqn:Ec.
  - by rewrite getSubstitution_literal, noSpace_app, Hr, IH.
  - simpl. by rewrite Ec, IH.
Qed.

Lemma replaceFrom_noSpace_in r b s : noSpace s = true -> replaceFrom r b s = s.
Proof.
  revert b. induction s as [|c t IH]; intros b; [done|]. simpl.
  intros [Hc Ht]%andb_true_iff. apply negb_true_iff in Hc. rewrite Hc.
  f_equal. by apply IH.
Qed.

Lemma replaceFrom_lower r b b' s :
  noDollar r = true -> toLowerCase r = r ->
  toLowerCase (replaceFrom r b s) = replaceFrom r b' (toLowerCase s).
Proof.
  intros Hd Hr. revert b b'. induction s as [|c t IH]; intros b b'; [done|].
  simpl. rewrite is_space_lower. destruct (is_space c).
  - rewrite !getSubstitution_literal by done.
    rewrite toLowerCase_app, Hr. f_equal. apply IH.
  - simpl. f_equal. apply IH.
Qed.

End JsStringFacts.

(** ** Key normaliser *)

Section Normalize.
Import JsString JsStringFacts.

Variable opts : Opts.

Let stepTrim s := if trim_keys opts then trim s else s.
Let stepLower s := if lowercase_keys opts then toLowerCase s else s.
Let stepCollapse s := if remove_double_whitespaces opts then collapseWhitespace s else s.
Let stepReplace s :=
  match replacementOf (replace_whitespaces_keys opts) with
  | Some repl => replaceWhitespace repl s
  | None => s
  end.

Lemma normalizeKey_steps s :
  normalizeKey opts s = stepReplace (stepCollapse (stepLower (stepTrim s))).
Proof. reflexivity. Qed.

Hypothesis Hstable : stableReplacement opts.

(** The replacement that line 48 uses is literal, free of whitespace and,
    under [lowercase_keys], in lower case. *)
Lemma replacement_stable repl :
  replacementOf (replace_whitespaces_keys opts) = Some repl ->
  noDollar repl = true /\ noSpace repl = true /\
  (lowercase_keys opts = true -> toLowerCase repl = repl).
Proof.
  unfold stableReplacement in Hstable.
  destruct (replace_whitespaces_keys opts) as [[]|r]; simpl.
  - by intros [= <-].
  - done.
  - destruct r; [done|]. by intros [= <-].
Qed.

Lemma stepReplace_clean s :
  startClean s = true /\ endClean s = true ->
  startClean (stepReplace s) = true /\ endClean (stepReplace s) = true.
Proof.
  unfold stepReplace.
  destruct (replacementOf _) as [repl|] eqn:E; [|done].
  destruct (replacement_stable _ E) as (Hd & Hs & _). intros _.
  by apply noSpace_clean, replaceFrom_noSpace_out.
Qed.

Lemma stepCollapse_clean s :
  startClean s = true /\ endClean s = true ->
  startClean (stepCollapse s) = true /\ endClean (stepCollapse s) = true.
Proof.
  unfold stepCollapse. destruct (remove_double_whitespaces opts); [|done].
  intros [H1 H2]. split; [by apply startClean_collapse|by apply endClean_collapseFrom].
Qed.

Lemma stepLower_clean s :
  startClean s = true /\ endClean s = true ->
  startClean (stepLower s) = true /\ endClean (stepLower s) = true.
Proof.
  unfold stepLower. destruct (lowercase_keys opts); [|done].
  by rewrite startClean_lower, endClean_lower.
Qed.

Lemma stepReplace_lower s :
  lowercase_keys opts = true -> toLowerCase s = s ->
  toLowerCase (stepReplace s) = stepReplace s.
Proof.
  intros Hl Hs. unfold stepReplace.
  destruct (replacementOf _) as [repl|] eqn:E; [|done].
  destruct (replacement_stable _ E) as (Hd & _ & Hr).
  unfold replaceWhitespace.
  rewrite (replaceFrom_lower repl "" "" s Hd (Hr Hl)). by rewrite Hs.
Qed.

Lemma stepCollapse_lower s :
  toLowerCase s = s -> toLowerCase (stepCollapse s) = stepCollapse s.
Proof.
  intros Hs. unfold stepCollapse, collapseWhitespace.
  destruct (remove_double_whitespaces opts); [|done].
  by rewrite collapseFrom_lower, Hs.
Qed.

Lemma stepReplace_collapsed s :
  collapseWhitespace s = s -> collapseWhitespace (stepReplace s) = stepReplace s.
Proof.
  unfold stepReplace.
  destruct (replacementOf _) as [repl|] eqn:E; [|done].
  destruct (replacement_stable _ E) as (Hd & Hs & _). intros _.
  by apply collapse_noRun, noSpace_noRun, replaceFrom_noSpace_out.
Qed.

Lemma stepReplace_idem s : stepReplace (stepReplace s) = stepReplace s.
Proof.
  unfold stepReplace.
  destruct (replacementOf _) as [repl|] eqn:E; [|done].
  destruct (replacement_stable _ E) as (Hd & Hs & _).
  by apply replaceFrom_noSpace_in, replaceFrom_noSpace_out.
Qed.

Lemma normalizeKey_fixed s :
  let x := normalizeKey opts s in
  stepTrim x = x /\ stepLower x = x /\ stepCollapse x = x /\ stepReplace x = x.
Proof.
  intros x. subst x. rewrite normalizeKey_steps. repeat split.
  - unfold stepTrim at 1. destruct (trim_keys opts) eqn:Et; [|done].
    assert (Hc : startClean (stepTrim s) = true /\ endClean (stepTrim s) = true).
    { unfold stepTrim. rewrite ?Et. apply trim_is_clean. }
    apply stepLower_clean, stepCollapse_clean, stepReplace_clean in Hc.
    destruct Hc as [Hc1 Hc2]. by apply trim_clean.
  - unfold stepLower at 1. destruct (lowercase_keys opts) eqn:El; [|done].
    apply stepReplace_lower, stepCollapse_lower; [done|].
    unfold stepLower. rewrite ?El. apply toLowerCase_idem.
  - unfold stepCollapse at 1.
    destruct (remove_double_whitespaces opts) eqn:Ec; [|done].
    apply stepReplace_collapsed. unfold stepCollapse. rewrite ?Ec.
    apply collapse_idem.
  - apply stepReplace_idem.
Qed.

End Normalize.

(** C5 (as amended).  Normalising a normalised key changes nothing, for
    every string and every setting of the four options in which
    [replace_whitespaces_keys] is a boolean or a replacement text that is
    literal (no dollar sign), free of whitespace and, when [lowercase_keys]
    is on, already in lower case. *)
Theorem normalizeKey_idempotent (opts : Opts) (s : string) :
  stableReplacement opts ->
  normalizeKey opts (normalizeKey opts s) = normalizeKey opts s.
Proof.
  intros H.
  destruct (normalizeKey_fixed opts H s) as (Ht & Hl & Hc & Hr).
  rewrite (normalizeKey_steps opts (normalizeKey opts s)).
  cbv zeta in *. by rewrite Ht, Hl, Hc, Hr.
Qed.

Lemma normalizeKey_idempotent_witness :
  stableReplacement (mkOpts true false true (ReplaceWith "-")) /\
  normalizeKey (mkOpts true false true (ReplaceWith "-"))
    (normalizeKey (mkOpts true false true (ReplaceWith "-")) " Unit   Price ")
  = normalizeKey (mkOpts true false true (ReplaceWith "-")) " Unit   Price ".
Proof.
  assert (H : stableReplacement (mkOpts true false true (ReplaceWith "-"))).
  { unfold stableReplacement; simpl.
    split; [reflexivity | split; [reflexivity | intros E; discriminate E]]. }
  split; [exact H | apply (normalizeKey_idempotent _ _ H)].
Defined.

(** C5 as stated fails: with [lowercase_keys] on and the replacement text
    "A", the key of "x y" is "xAy", and normalising that gives "xay". *)
Lemma normalizeKey_not_idempotent :
  normalizeKey (mkOpts true true true (ReplaceWith "A"))
    (normalizeKey (mkOpts true true true (ReplaceWith "A")) "x y")
  <> normalizeKey (mkOpts true true true (ReplaceWith "A")) "x y".
Proof. vm_compute. discriminate. Qed.

(** ** Row extractor and header-row policy *)

Lemma rowsOf_retag f k t :
  rowsOf k (retag f t)
  = map (map (fun c => mkCell (f c) (cell_text c) (cell_colspan c))) (rowsOf k t).
Proof.
  unfold rowsOf, retag. induction t as [|s t IH]; [done|].
  rewrite map_cons, !filter_cons.
  change (is_kind k (mkSection (sec_kind s) _)) with (is_kind k s).
  destruct (decide (is_kind k s = true)) as [E|E].
  - rewrite !map_cons. cbn [concat sec_rows]. rewrite IH. symmetry. apply fmap_app.
  - exact IH.
Qed.

(** C10.  A flat row holds the trimmed text of every cell of its body row,
    in document order, and the tags of the cells play no part: retagging
    the cells of the table in any way (every [th] into a [td], say) gives
    the same flat rows. *)
Theorem getRows_ignores_tags (t : Table) (f : Cell -> CellTag) :
  getRows (retag f t) = getRows t /\
  forall (i : nat) (tr : list Cell),
    rowsOf TBody t !! i = Some tr ->
    getRows t !! i = Some (textsOf tr) /\
    forall (j : nat) (c : Cell),
      tr !! j = Some c -> textsOf tr !! j = Some (JsString.trim (cell_text c)).
Proof.
  split.
  - unfold getRows. rewrite rowsOf_retag, <- list_fmap_compose.
    apply list_fmap_ext. intros _ tr _. simpl.
    by rewrite <- list_fmap_compose.
  - intros i tr Hi. split.
    + unfold getRows. by rewrite list_lookup_fmap, Hi.
    + intros j c Hj. unfold textsOf. by rewrite list_lookup_fmap, Hj.
Qed.

Lemma rowsOf_THead_none t : hasNoThead t -> rowsOf THead t = [].
Proof.
  unfold rowsOf. induction 1 as [|s t Hs _ IH]; [done|].
  rewrite filter_cons, decide_False; [exact IH|].
  unfold is_kind. by destruct (sec_kind s).
Qed.

(** C4 (as amended).  In a table without a header section the header rows
    are the first row of the table alone, and the data rows are all the
    rows of the body sections, in order: the row that serves as the header
    is not taken out.  When the table consists of body sections only, its
    first row is therefore also the first data row. *)
Theorem headerRow_stays_in_data (t : Table) :
  hasNoThead t ->
  headerRows t = take 1 (allRows t) /\
  getRows t = map textsOf (rowsOf TBody t) /\
  (Forall (fun s => sec_kind s = TBody) t ->
   forall (first : list Cell) (rest : list (list Cell)),
     allRows t = first :: rest ->
     headerRows t = [first] /\
     getRows t = textsOf first :: map textsOf rest).
Proof.
  intros Hno.
  assert (Hh : headerRows t = take 1 (allRows t)).
  { unfold headerRows. by rewrite rowsOf_THead_none. }
  split; [exact Hh|]. split; [reflexivity|].
  intros Hbody first rest Hall.
  assert (Hrows : rowsOf TBody t = allRows t).
  { unfold rowsOf, allRows. f_equal. f_equal.
    clear -Hbody. induction Hbody as [|s t Hs _ IH]; [done|].
    rewrite filter_cons, decide_True; [by rewrite IH|].
    unfold is_kind. by rewrite Hs. }
  split.
  - by rewrite Hh, Hall.
  - unfold getRows. fold textsOf. by rewrite Hrows, Hall.
Qed.

Lemma headerRow_stays_in_data_witness :
  hasNoThead sampleTable /\
  headerRows sampleTable = take 1 (allRows sampleTable).
Proof.
  assert (H : hasNoThead sampleTable).
  { repeat constructor; simpl; discriminate. }
  split; [exact H | exact (proj1 (headerRow_stays_in_data sampleTable H))].
Defined.

(** C4 as stated fails: the table has no header section, its first row
    gives the header [a], and yet that row is extracted as a data row and
    parsed into a record, before the one data row proper. *)
Lemma headerRow_not_skipped :
  hasNoThead sampleTable /\
  getRows sampleTable <> map textsOf (drop 1 (allRows sampleTable)) /\
  parseTable defaultOpts sampleTable
  = [[("a", VString "a")]; [("a", VString "1")]].
Proof.
  split; [repeat constructor; simpl; discriminate|].
  split; [vm_compute; discriminate | vm_compute; reflexivity].
Qed.

(** ** Header cells: induction and the equations of the row mapper *)

Lemma mapHeader_leaf n r o row :
  mapHeader (mkHeader n r []) o row
  = (mkHeader n r [], JsObject.set o n (shift row).1, (shift row).2).
Proof. simpl. by destruct (shift row). Qed.

Lemma mapHeader_node n r s ss o row :
  mapHeader (mkHeader n r (s :: ss)) o row
  = (mkHeader (freshName o n) r (mapHeaders (s :: ss) [] row).1.1,
     JsObject.set o (freshName o n) (VObject (mapHeaders (s :: ss) [] row).1.2),
     (mapHeaders (s :: ss) [] row).2).
Proof.
  change (mapHeader (mkHeader n r (s :: ss)) o row)
    with (let '(subs', nested, row') := mapHeaders (s :: ss) [] row in
          (mkHeader (freshName o n) r subs',
           JsObject.set o (freshName o n) (VObject nested), row')).
  by destruct (mapHeaders (s :: ss) [] row) as [[? ?] ?].
Qed.

Lemma mapHeaders_cons h hs o row :
  mapHeaders (h :: hs) o row
  = ((mapHeader h o row).1.1
       :: (mapHeaders hs (mapHeader h o row).1.2 (mapHeader h o row).2).1.1,
     (mapHeaders hs (mapHeader h o row).1.2 (mapHeader h o row).2).1.2,
     (mapHeaders hs (mapHeader h o row).1.2 (mapHeader h o row).2).2).
Proof.
  cbn [mapHeaders]. destruct (mapHeader h o row) as [[h' o'] row']. simpl.
  by destruct (mapHeaders hs o' row') as [[? ?] ?].
Qed.

Lemma leafCount_leaf n r : leafCount (mkHeader n r []) = 1%nat.
Proof. reflexivity. Qed.

Lemma leafCount_node n r s ss :
  leafCount (mkHeader n r (s :: ss)) = leafCounts (s :: ss).
Proof.
  change (leafCount (mkHeader n r (s :: ss)))
    with ((fix sumAll (l : list HeaderCell) : nat :=
             match l with
             | [] => 0%nat
             | x :: rest => (leafCount x + sumAll rest)%nat
             end) (s :: ss)).
  generalize (s :: ss). intros l. induction l as [|x l IH]; [done|].
  cbn [leafCounts]. by rewrite IH.
Qed.

(** ** Objects *)

Module JsObjectFacts.
Import JsObject.

Lemma ofNat_inj n m : JsString.ofNat n = JsString.ofNat m -> n = m.
Proof.
  unfold JsString.ofNat. intros H.
  apply (f_equal NilEmpty.uint_of_string) in H.
  rewrite !NilEmpty.usu in H. injection H as H.
  apply (f_equal Nat.of_uint) in H.
  by rewrite !DecimalNat.Unsigned.of_to in H.
Qed.

Lemma unlabelled_inj i j : unlabelled i = unlabelled j -> i = j.
Proof. unfold unlabelled. simpl. intros [= H]. by apply ofNat_inj. Qed.

Lemma set_unlabelled o i v : set o (unlabelled i) v = setOwn o (unlabelled i) v.
Proof. reflexivity. Qed.

Lemma getOwn_setOwn_eq o k v : getOwn (setOwn o k v) k = Some v.
Proof.
  induction o as [|[k' v'] o IH]; simpl.
  - by rewrite String.eqb_refl.
  - destruct (String.eqb k k') eqn:E; simpl; rewrite E; [done|exact IH].
Qed.

Lemma getOwn_setOwn_ne o k k' v :
  k <> k' -> getOwn (setOwn o k v) k' = getOwn o k'.
Proof.
  intros Hne. induction o as [|[k0 v0] o IH]; simpl.
  - destruct (String.eqb k' k) eqn:E; [|done].
    apply String.eqb_eq in E. congruence.
  - destruct (String.eqb k k0) eqn:E; simpl.
    + apply String.eqb_eq in E. subst k0.
      destruct (String.eqb k' k) eqn:E'; [|done].
      apply String.eqb_eq in E'. congruence.
    + by rewrite IH.
Qed.

Lemma setOwn_fresh o k v :
  getOwn o k = None -> setOwn o k v = (o ++ [(k, v)])%list.
Proof.
  induction o as [|[k' v'] o IH]; simpl; [done|].
  destruct (String.eqb k k'); [done|]. intros H. by rewrite IH.
Qed.

Lemma getOwn_app_fresh o o' k :
  getOwn o k = None -> getOwn (o ++ o')%list k = getOwn o' k.
Proof.
  induction o as [|[k' v'] o IH]; simpl; [done|].
  destruct (String.eqb k k'); [done|]. exact IH.
Qed.

End JsObjectFacts.

(** ** Row mapper: what is consumed and where the rest goes *)

Lemma shift_row row : (shift row).2 = drop 1 row.
Proof. by destruct row. Qed.

Lemma mapHeaders_rest_of (P := fun h =>
    forall o row, (mapHeader h o row).2 = drop (leafCount h) row) hs :
  Forall P hs ->
  forall o row, (mapHeaders hs o row).2 = drop (leafCounts hs) row.
Proof.
  induction 1 as [|h hs Hh _ IH]; intros o row; [done|].
  rewrite mapHeaders_cons. cbn [snd leafCounts].
  by rewrite IH, Hh, drop_drop.
Qed.

Lemma mapHeader_rest h o row :
  (mapHeader h o row).2 = drop (leafCount h) row.
Proof.
  revert o row. induction h as [n r subs IH] using header_ind. intros o row.
  destruct subs as [|s ss].
  - rewrite mapHeader_leaf. apply shift_row.
  - rewrite mapHeader_node, leafCount_node. cbn [snd].
    by apply mapHeaders_rest_of.
Qed.

(** One value leaves the row for every header without subheaders. *)
Lemma mapHeaders_rest hs o row :
  (mapHeaders hs o row).2 = drop (leafCounts hs) row.
Proof.
  apply mapHeaders_rest_of, Forall_forall. intros h _. apply mapHeader_rest.
Qed.

Lemma addUnlabelled_other row : forall o i k,
  (forall j, (j < length row)%nat -> k <> unlabelled (i + j)) ->
  JsObject.getOwn (addUnlabelled o i row) k = JsObject.getOwn o k.
Proof.
  induction row as [|y row IH]; intros o i k Hk; [done|].
  cbn [addUnlabelled]. rewrite IH.
  - rewrite JsObjectFacts.set_unlabelled, JsObjectFacts.getOwn_setOwn_ne; [done|].
    intros E. apply (Hk 0%nat); [simpl; lia|]. by rewrite Nat.add_0_r.
  - intros j Hj. replace (S i + j)%nat with (i + S j)%nat by lia.
    apply Hk. simpl. lia.
Qed.

Lemma addUnlabelled_lookup row : forall o i j x,
  row !! j = Some x ->
  JsObject.getOwn (addUnlabelled o i row) (unlabelled (i + j)) = Some (valueOf x).
Proof.
  induction row as [|y row IH]; intros o i j x Hj; [done|].
  cbn [addUnlabelled]. destruct j as [|j].
  - injection Hj as ->. rewrite Nat.add_0_r, addUnlabelled_other.
    + rewrite JsObjectFacts.set_unlabelled. apply JsObjectFacts.getOwn_setOwn_eq.
    + intros j _ E. apply JsObjectFacts.unlabelled_inj in E. lia.
  - replace (i + S j)%nat with (S i + j)%nat by lia. by apply IH.
Qed.

Lemma addUnlabelled_fresh row : forall o i,
  (forall j, (j < length row)%nat -> JsObject.getOwn o (unlabelled (i + j)) = None) ->
  addUnlabelled o i row
  = (o ++ imap (fun j x => (unlabelled (i + j), valueOf x)) row)%list.
Proof.
  induction row as [|y row IH]; intros o i Hfresh.
  - simpl. by rewrite app_nil_r.
  - cbn [addUnlabelled imap].
    rewrite JsObjectFacts.set_unlabelled, JsObjectFacts.setOwn_fresh.
    2:{ specialize (Hfresh 0%nat). rewrite Nat.add_0_r in Hfresh.
        apply Hfresh. simpl. lia. }
    rewrite IH.
    + rewrite <- app_assoc. cbn [app]. rewrite Nat.add_0_r. do 2 f_equal.
      apply imap_ext. intros j x _. simpl. do 2 f_equal. lia.
    + intros j Hj. rewrite JsObjectFacts.getOwn_app_fresh.
      * cbn [JsObject.getOwn]. destruct (String.eqb _ _) eqn:E; [|done].
        apply String.eqb_eq, JsObjectFacts.unlabelled_inj in E. lia.
      * replace (S i + j)%nat with (i + S j)%nat by lia. apply Hfresh. simpl. lia.
Qed.

Lemma mapRowToHeaders_eq hs row :
  mapRowToHeaders hs row
  = (addUnlabelled (mapHeaders hs [] row).1.2 0 (mapHeaders hs [] row).2,
     (mapHeaders hs [] row).1.1, (mapHeaders hs [] row).2).
Proof.
  unfold mapRowToHeaders. by destruct (mapHeaders hs [] row) as [[? ?] ?].
Qed.

Lemma mapRowToHeaders_rest hs row :
  (mapRowToHeaders hs row).2 = drop (leafCounts hs) row.
Proof. rewrite mapRowToHeaders_eq. cbn [snd]. apply mapHeaders_rest. Qed.

Lemma mapRowToHeaders_unlabelled hs row i x :
  drop (leafCounts hs) row !! i = Some x ->
  JsObject.getOwn (mapRowToHeaders hs row).1.1 (unlabelled i) = Some (valueOf x).
Proof.
  intros Hi. rewrite mapRowToHeaders_eq. cbn [fst]. rewrite mapHeaders_rest.
  by apply (addUnlabelled_lookup _ _ 0%nat).
Qed.



(** ** Row mapper: spans play no part *)

Lemma eraseSpans_eq n r subs :
  eraseSpans (mkHeader n r subs) = mkHeader n 0 (map eraseSpans subs).
Proof. reflexivity. Qed.

Lemma mapHeaders_eraseSpans_of (P := fun h =>
    forall o row,
      mapHeader (eraseSpans h) o row
      = (eraseSpans (mapHeader h o row).1.1,
         (mapHeader h o row).1.2, (mapHeader h o row).2)) hs :
  Forall P hs ->
  forall o row,
    mapHeaders (map eraseSpans hs) o row
    = (map eraseSpans (mapHeaders hs o row).1.1,
       (mapHeaders hs o row).1.2, (mapHeaders hs o row).2).
Proof.
  induction 1 as [|h hs Hh _ IH]; intros o row; [done|].
  rewrite map_cons, !mapHeaders_cons, Hh. cbn [fst snd].
  by rewrite IH.
Qed.

Lemma mapHeader_eraseSpans h : forall o row,
  mapHeader (eraseSpans h) o row
  = (eraseSpans (mapHeader h o row).1.1,
     (mapHeader h o row).1.2, (mapHeader h o row).2).
Proof.
  induction h as [n r subs IH] using header_ind. intros o row.
  rewrite eraseSpans_eq. destruct subs as [|s ss].
  - cbn [map]. by rewrite !mapHeader_leaf.
  - rewrite map_cons, mapHeader_node, <- (map_cons eraseSpans s ss).
    rewrite (mapHeaders_eraseSpans_of _ IH), mapHeader_node.
    cbn [fst snd]. by rewrite eraseSpans_eq.
Qed.

Lemma headerGroupOf_leaves opts tr :
  Forall (fun h => subheaders h = []) (headerGroupOf opts tr).
Proof. unfold headerGroupOf. apply Forall_forall. intros h [c [-> _]]%list_elem_of_fmap. done. Qed.

Lemma leafCounts_leaves hs :
  Forall (fun h => subheaders h = []) hs -> leafCounts hs = length hs.
Proof.
  induction 1 as [|[n r subs] hs Hh _ IH]; [done|].
  simpl in Hh. subst subs. cbn [leafCounts length]. by rewrite IH.
Qed.

(** ** Row mapper: a row that runs out *)





(** ** Row mapper: names that collide *)

(** C1 fails on the code.  Two headers without subheaders named [x]: the
    second value overwrites the first under [x], and no key [x_0] exists
    (line 117 assigns without looking).  Three sibling headers named [x]
    that have subheaders get the keys [x], [x_0] and [x_0_2], not [x_1]
    (line 113 appends to the name it has already extended, and steps its
    counter twice per round). *)
Theorem duplicate_names_on_the_code :
  mapRowToHeaders (buildHeaders [[mkHeader "x" 0 []; mkHeader "x" 0 []]])
                  [Text "1"; Text "2"]
  = ([("x", VString "2")], [mkHeader "x" 0 []; mkHeader "x" 0 []], []) /\
  (mapRowToHeaders threeSiblings [Text "1"; Text "2"; Text "3"]).1.1
  = [ ("x", VObject [("c", VString "1")]);
      ("x_0", VObject [("d", VString "2")]);
      ("x_0_2", VObject [("e", VString "3")]) ].
Proof. split; vm_compute; reflexivity. Qed.

(** *** The loop of line 113 ends by its own test *)

Lemma truthyAt_candidate o k :
  JsObject.truthyAt o k = true -> k ∈ candidates o.
Proof.
  unfold JsObject.truthyAt, candidates. rewrite elem_of_app.
  destruct (String.eqb k "__proto__") eqn:Ep.
  { apply String.eqb_eq in Ep. subst k. intros _. right.
    apply list_elem_of_In. simpl. tauto. }
  destruct (JsObject.getOwn o k) as [v|] eqn:Eg.
  - intros _. left. clear Ep. induction o as [|[k' v'] o IH]; [done|].
    simpl in Eg. destruct (String.eqb k k') eqn:E.
    + apply String.eqb_eq in E. subst k'. simpl. left.
    + simpl. right. by apply IH.
  - unfold JsObject.inherited. intros [k' [Hin E]]%existsb_exists.
    apply String.eqb_eq in E. subst k'. right. by apply list_elem_of_In.
Qed.

Lemma countLonger_le len names : (countLonger len names <= length names)%nat.
Proof.
  induction names as [|k names IH]; simpl; [lia|].
  destruct (len <=? String.length k)%nat; lia.
Qed.

Lemma countLonger_mono len len' names :
  (len <= len')%nat -> (countLonger len' names <= countLonger len names)%nat.
Proof.
  intros Hle. induction names as [|k names IH]; simpl; [lia|].
  destruct (len' <=? String.length k)%nat eqn:E'.
  - apply Nat.leb_le in E'. rewrite (proj2 (Nat.leb_le len _)) by lia. lia.
  - destruct (len <=? String.length k)%nat; lia.
Qed.

Lemma countLonger_lt len len' names k :
  k ∈ names -> (len <= String.length k)%nat -> (String.length k < len')%nat ->
  (countLonger len' names < countLonger len names)%nat.
Proof.
  intros Hin H1 H2. induction Hin as [k names|k k' names _ IH]; simpl.
  - rewrite (proj2 (Nat.leb_le len _)) by lia.
    rewrite (proj2 (Nat.leb_gt len' _)) by lia.
    pose proof (countLonger_mono len len' names). lia.
  - destruct (len' <=? String.length k')%nat eqn:E'.
    + apply Nat.leb_le in E'. rewrite (proj2 (Nat.leb_le len _)) by lia. lia.
    + destruct (len <=? String.length k')%nat; lia.
Qed.

Lemma length_append s t :
  String.length (s +:+ t) = (String.length s + String.length t)%nat.
Proof. induction s as [|c s IH]; simpl; [done|]. by rewrite IH. Qed.

Lemma renameLoop_falsy o : forall fuel name i,
  (countLonger (String.length name) (candidates o) < fuel)%nat ->
  JsObject.truthyAt o (renameLoop fuel o name i) = false.
Proof.
  induction fuel as [|fuel IH]; intros name i Hfuel; [lia|].
  cbn [renameLoop]. destruct (JsObject.truthyAt o name) eqn:E; [|exact E].
  apply IH.
  pose proof (countLonger_lt (String.length name)
                (String.length (name +:+ "_" +:+ JsString.ofNat i))
                (candidates o) name (truthyAt_candidate _ _ E)) as Hlt.
  rewrite !length_append in *. simpl in *. lia.
Qed.

(** The name that line 114 uses is falsy in the object: the loop has left
    by its test, not for want of fuel. *)
Lemma freshName_falsy o name : JsObject.truthyAt o (freshName o name) = false.
Proof.
  apply renameLoop_falsy.
  pose proof (countLonger_le (String.length name) (candidates o)) as H.
  assert (Hc : length (candidates o)
               = (length o + length JsObject.inheritedNames)%nat).
  { unfold candidates. by rewrite length_app, length_map. }
  lia.
Qed.

(** More fuel changes nothing. *)
Lemma renameLoop_enough o : forall fuel fuel' name i,
  (countLonger (String.length name) (candidates o) < fuel)%nat ->
  (fuel <= fuel')%nat ->
  renameLoop fuel' o name i = renameLoop fuel o name i.
Proof.
  induction fuel as [|fuel IH]; intros fuel' name i Hfuel Hle; [lia|].
  destruct fuel' as [|fuel']; [lia|].
  cbn [renameLoop]. destruct (JsObject.truthyAt o name) eqn:E; [|done].
  apply IH; [|lia].
  pose proof (countLonger_lt (String.length name)
                (String.length (name +:+ "_" +:+ JsString.ofNat i))
                (candidates o) name (truthyAt_candidate _ _ E)) as Hlt.
  rewrite !length_append in *. simpl in *. lia.
Qed.

Lemma freshName_fixed o name :
  JsObject.truthyAt o name = false -> freshName o name = name.
Proof. intros E. unfold freshName. cbn [renameLoop]. by rewrite E. Qed.

Lemma freshName_not_proto o name : freshName o name <> "__proto__".
Proof.
  intros E. pose proof (freshName_falsy o name) as H.
  rewrite E in H. discriminate H.
Qed.

(** ** Row mapper: what it does to the headers *)

Lemma skeleton_leaf n r : skeleton (mkHeader n r []) = mkHeader n r [].
Proof. reflexivity. Qed.

Lemma skeleton_node n r s ss :
  skeleton (mkHeader n r (s :: ss)) = mkHeader "" r (map skeleton (s :: ss)).
Proof. reflexivity. Qed.

Lemma mapHeaders_skeleton_of (P := fun h =>
    forall o row, skeleton (mapHeader h o row).1.1 = skeleton h) hs :
  Forall P hs ->
  forall o row, map skeleton (mapHeaders hs o row).1.1 = map skeleton hs.
Proof.
  induction 1 as [|h hs Hh _ IH]; intros o row; [done|].
  rewrite mapHeaders_cons. cbn [fst map]. by rewrite Hh, IH.
Qed.

Lemma mapHeader_skeleton h : forall o row,
  skeleton (mapHeader h o row).1.1 = skeleton h.
Proof.
  induction h as [n r subs IH] using header_ind. intros o row.
  destruct subs as [|s ss].
  - by rewrite mapHeader_leaf.
  - rewrite mapHeader_node. cbn [fst].
    pose proof (mapHeaders_skeleton_of _ IH [] row) as Hsub.
    rewrite skeleton_node, <- Hsub.
    destruct (mapHeaders (s :: ss) [] row).1.1 as [|s' ss'] eqn:E.
    + rewrite mapHeaders_cons in E. discriminate E.
    + apply skeleton_node.
Qed.

Lemma mapHeaders_again_of (P := fun h =>
    forall o row, mapHeader (mapHeader h o row).1.1 o row = mapHeader h o row) hs :
  Forall P hs ->
  forall o row, mapHeaders (mapHeaders hs o row).1.1 o row = mapHeaders hs o row.
Proof.
  induction 1 as [|h hs Hh _ IH]; intros o row; [done|].
  rewrite (mapHeaders_cons h hs). cbn [fst].
  rewrite mapHeaders_cons, Hh, IH. done.
Qed.

Lemma mapHeader_again h : forall o row,
  mapHeader (mapHeader h o row).1.1 o row = mapHeader h o row.
Proof.
  induction h as [n r subs IH] using header_ind. intros o row.
  destruct subs as [|s ss].
  - rewrite mapHeader_leaf. cbn [fst]. apply mapHeader_leaf.
  - pose proof (mapHeaders_again_of _ IH [] row) as Hsub.
    rewrite mapHeader_node. cbn [fst].
    destruct (mapHeaders (s :: ss) [] row).1.1 as [|s' ss'] eqn:E.
    + rewrite mapHeaders_cons in E. discriminate E.
    + rewrite mapHeader_node, Hsub.
      rewrite (freshName_fixed o (freshName o n)) by apply freshName_falsy.
      by rewrite E.
Qed.

Lemma mapHeaders_again hs o row :
  mapHeaders (mapHeaders hs o row).1.1 o row = mapHeaders hs o row.
Proof.
  apply mapHeaders_again_of, Forall_forall. intros h _. apply mapHeader_again.
Qed.

(** C6 (as amended).  Mapping a row changes the headers in one respect
    only: a header that has subheaders keeps the name that line 113 gave
    it.  Spans, the shape of the tree and the names of the headers without
    subheaders stay as they were.  Mapping a row with the same contents
    again, against the headers as the first mapping left them, gives the
    same record and changes no header. *)
Theorem row_mapping_repeats (hs : list HeaderCell) (row : list RowItem) :
  map skeleton (mapRowToHeaders hs row).1.2 = map skeleton hs /\
  mapRowToHeaders (mapRowToHeaders hs row).1.2 row = mapRowToHeaders hs row.
Proof.
  rewrite (mapRowToHeaders_eq hs row). cbn [fst snd]. split.
  - apply mapHeaders_skeleton_of, Forall_forall. intros h _.
    apply mapHeader_skeleton.
  - by rewrite mapRowToHeaders_eq, mapHeaders_again.
Qed.

(** C6 as stated fails: mapping a row renames the second and the third of
    three sibling headers named [x]; and a renamed header stays renamed,
    so that a later row is not mapped as it would be against the headers
    as built. *)
Lemma row_mapping_renames_headers :
  (mapRowToHeaders threeSiblings [Text "1"; Text "2"; Text "3"]).1.2
  <> threeSiblings /\
  map name (mapRowToHeaders threeSiblings [Text "1"; Text "2"; Text "3"]).1.2
  = ["x"; "x_0"; "x_0_2"] /\
  (mapRowToHeaders leafThenNode [Text ""; Text "w"]).1.1
  = [("x", VObject [("c", VString "w")])] /\
  (mapRowToHeaders (mapRowToHeaders leafThenNode [Text "1"; Text "v"]).1.2
                   [Text ""; Text "w"]).1.1
  = [("x", VString ""); ("x_0", VObject [("c", VString "w")])].
Proof.
  split; [vm_compute; discriminate|].
  repeat split; vm_compute; reflexivity.
Qed.

(** ** Header tree builder against the rule of the specification *)

Lemma lengthOrOne_max subs :
  lengthOrOne subs = Z.max 1 (Z.of_nat (length subs)).
Proof. destruct subs as [|s ss]; [done|]. unfold lengthOrOne. simpl length. lia. Qed.

Lemma scanParents_spec header parents :
  scanParents header parents = specAttach nonZero header parents.
Proof.
  unfold specAttach. induction parents as [|p ps IH]; [done|].
  cbn [scanParents list_find].
  destruct (decide (nonZero (remainingSubheaders p) = true)) as [Hd|Hd].
  - unfold nonZero in Hd. apply negb_true_iff in Hd. rewrite Hd.
    simpl. by rewrite lengthOrOne_max.
  - apply not_true_is_false in Hd. unfold nonZero in Hd.
    apply negb_false_iff in Hd. rewrite Hd, IH.
    destruct (list_find _ ps) as [[k q]|]; done.
Qed.

Lemma absorbGroup_spec row : forall parents marked,
  foldl (fun '(marked, parents) header =>
           match specAttach nonZero header parents with
           | Some parents' => (marked ++ [None], parents')
           | None => (marked ++ [Some header], parents)
           end)
        (marked, parents) row
  = (marked ++ (absorbGroup row parents).1, (absorbGroup row parents).2).
Proof.
  induction row as [|h row IH]; intros parents marked.
  - simpl. by rewrite app_nil_r.
  - cbn [foldl absorbGroup]. rewrite <- scanParents_spec.
    destruct (scanParents h parents) as [parents'|].
    + rewrite IH. destruct (absorbGroup row parents') as [g p']. simpl.
      by rewrite <- app_assoc.
    + rewrite IH. destruct (absorbGroup row parents) as [g p']. simpl.
      by rewrite <- app_assoc.
Qed.

Lemma absorbRows_spec below : forall first,
  specLevels nonZero (first :: below) = Some (absorbRows first below).
Proof.
  induction below as [|next below IH]; intros first; [done|].
  unfold specLevels in *. cbn [foldr]. cbn [foldr] in IH. rewrite IH.
  cbn [absorbRows]. destruct (absorbRows next below) as [next' rows'].
  unfold specAbsorbRow. rewrite absorbGroup_spec.
  by destruct (absorbGroup next' first) as [g first'].
Qed.

(** C2 (as amended).  The header tree that the code builds is the one
    that the rule of the specification gives when "remaining span greater
    than 0" is read as "remaining span other than 0": rows from the last
    down to row 1; each cell to the first cell of the row above whose
    remaining span is not zero, which loses the maximum of 1 and the
    number of the cell's children and gains the cell as its last child,
    the cell being removed from its row; a cell stays in place when every
    cell above has remaining span zero. *)
Theorem buildHeaders_follows_rule (groups : list (list HeaderCell)) :
  buildHeaders groups = specBuild nonZero groups /\
  forall (header : HeaderCell) (parents : list HeaderCell),
    match scanParents header parents with
    | Some parents' =>
        exists (k : nat) (parent : HeaderCell),
          parents !! k = Some parent /\
          remainingSubheaders parent <> 0 /\
          (forall j p, parents !! j = Some p -> (j < k)%nat ->
                       remainingSubheaders p = 0) /\
          parents' = <[k := mkHeader (name parent)
                              (remainingSubheaders parent
                               - Z.max 1 (Z.of_nat (length (subheaders header))))
                              (subheaders parent ++ [header])]> parents
    | None => Forall (fun p => remainingSubheaders p = 0) parents
    end.
Proof.
  split.
  - unfold buildHeaders, specBuild. destruct groups as [|first below]; [done|].
    rewrite absorbRows_spec. by destruct (absorbRows first below).
  - intros header parents. rewrite scanParents_spec. unfold specAttach.
    destruct (list_find _ parents) as [[k parent]|] eqn:E.
    + apply list_find_Some in E as (Hk & Hp & Hfirst).
      exists k, parent. split; [done|]. split; [|split; [|done]].
      * unfold nonZero in Hp. apply negb_true_iff, Z.eqb_neq in Hp. done.
      * intros j p Hj Hlt. specialize (Hfirst j p Hj Hlt).
        unfold nonZero in Hfirst.
        destruct (remainingSubheaders p =? 0) eqn:Ez; [by apply Z.eqb_eq|].
        by destruct Hfirst.
    + apply list_find_None in E. eapply Forall_impl; [exact E|].
      intros p Hp. unfold nonZero in Hp. simpl in Hp.
      destruct (remainingSubheaders p =? 0) eqn:Ez; [by apply Z.eqb_eq|].
      by destruct Hp.
Qed.

(** C2 as stated fails.  [b] takes [c] and [d]; [a], with one column left,
    takes [b] and is charged two, so that it stands at -1.  The code then
    hands [e] to [a] as well, since -1 is not zero; by the rule as worded
    [e] finds no parent with a remaining span above 0 and stays a root. *)
Lemma buildHeaders_negative_span_attaches :
  buildHeaders (map declared overdrawn)
  <> specBuild positive (map declared overdrawn) /\
  map name (buildHeaders (map declared overdrawn)) = ["a"] /\
  map name (specBuild positive (map declared overdrawn)) = ["a"; "e"].
Proof.
  split; [vm_compute; discriminate|]. split; vm_compute; reflexivity.
Qed.

(** ** Header tree builder: the remaining span *)

Lemma spansNonNeg_eq n r subs :
  spansNonNeg (mkHeader n r subs) = (0 <=? r) && forallb spansNonNeg subs.
Proof. reflexivity. Qed.

Lemma lengthOrOne_pos subs : 1 <= lengthOrOne subs.
Proof. rewrite lengthOrOne_max. lia. Qed.

Lemma lengthOrOne_few subs : (length subs <= 1)%nat -> lengthOrOne subs = 1.
Proof. destruct subs as [|s [|s' ss]]; simpl; [done|done|lia]. Qed.

Lemma scanParents_decreases header parents : forall parents',
  scanParents header parents = Some parents' ->
  Forall2 (fun p p' => name p' = name p /\
                       remainingSubheaders p' <= remainingSubheaders p)
          parents parents'.
Proof.
  induction parents as [|p ps IH]; intros parents' H; [done|].
  cbn [scanParents] in H. destruct (remainingSubheaders p =? 0).
  - destruct (scanParents header ps) as [ps'|]; [|done].
    injection H as <-. constructor; [split; [done|lia]|by apply IH].
  - injection H as <-. constructor.
    + simpl. pose proof (lengthOrOne_pos (subheaders header)). split; [done|lia].
    + apply Forall2_same_length_lookup. split; [done|].
      intros i x y Hx Hy. rewrite Hx in Hy. injection Hy as <-. split; [done|lia].
Qed.

Lemma scanParents_nonNeg header parents : forall parents',
  Forall (fun p => spansNonNeg p = true) parents ->
  spansNonNeg header = true ->
  (length (subheaders header) <= 1)%nat ->
  scanParents header parents = Some parents' ->
  Forall (fun p => spansNonNeg p = true) parents'.
Proof.
  intros parents' Hps Hh Hfew. revert parents'.
  induction Hps as [|p ps Hp Hps IH]; intros parents' H; [done|].
  cbn [scanParents] in H. destruct (remainingSubheaders p =? 0) eqn:E.
  - destruct (scanParents header ps) as [ps'|]; [|done].
    injection H as <-. constructor; [done|by apply IH].
  - injection H as <-. constructor; [|done].
    destruct p as [n r subs]. rewrite spansNonNeg_eq in Hp |- *.
    apply andb_true_iff in Hp as [Hr Hsubs]. simpl in E |- *.
    rewrite lengthOrOne_few by done.
    apply Z.eqb_neq in E. apply Z.leb_le in Hr.
    rewrite forallb_app, Hsubs. simpl. rewrite Hh.
    rewrite (proj2 (Z.leb_le 0 (r - 1))) by lia. done.
Qed.

(** Remaining span and number of children together never grow. *)
Lemma scanParents_capacity bound header parents : forall parents',
  Forall (fun p => remainingSubheaders p + Z.of_nat (length (subheaders p)) <= bound)
         parents ->
  scanParents header parents = Some parents' ->
  Forall (fun p => remainingSubheaders p + Z.of_nat (length (subheaders p)) <= bound)
         parents'.
Proof.
  intros parents' Hps. revert parents'.
  induction Hps as [|p ps Hp Hps IH]; intros parents' H; [done|].
  cbn [scanParents] in H. destruct (remainingSubheaders p =? 0).
  - destruct (scanParents header ps) as [ps'|]; [|done].
    injection H as <-. constructor; [done|by apply IH].
  - injection H as <-. constructor; [|done]. simpl.
    pose proof (lengthOrOne_pos (subheaders header)).
    rewrite length_app. simpl. lia.
Qed.

Lemma absorbGroup_nonNeg headerGroup : forall parents,
  Forall (fun h => spansNonNeg h = true /\ (length (subheaders h) <= 1)%nat)
         headerGroup ->
  Forall (fun p => spansNonNeg p = true) parents ->
  Forall (fun p => spansNonNeg p = true) (absorbGroup headerGroup parents).2 /\
  Forall (fun h => spansNonNeg h = true)
         (omap id (absorbGroup headerGroup parents).1).
Proof.
  intros parents Hg. revert parents.
  induction Hg as [|h hs [Hh Hfew] _ IH]; intros parents Hps; [done|].
  cbn [absorbGroup]. destruct (scanParents h parents) as [parents'|] eqn:E.
  - destruct (IH parents') as (H1 & H2); [by eapply scanParents_nonNeg|].
    by destruct (absorbGroup hs parents').
  - destruct (IH parents Hps) as (H1 & H2).
    destruct (absorbGroup hs parents). simpl in *.
    split; [done|]. by constructor.
Qed.

Lemma absorbGroup_capacity bound headerGroup : forall parents,
  Forall (fun p => remainingSubheaders p + Z.of_nat (length (subheaders p)) <= bound)
         parents ->
  Forall (fun p => remainingSubheaders p + Z.of_nat (length (subheaders p)) <= bound)
         (absorbGroup headerGroup parents).2.
Proof.
  induction headerGroup as [|h hs IH]; intros parents Hcap; [done|].
  cbn [absorbGroup]. destruct (scanParents h parents) as [parents'|] eqn:E.
  - specialize (IH parents' (scanParents_capacity _ _ _ _ Hcap E)).
    by destruct (absorbGroup hs parents').
  - specialize (IH parents Hcap). by destruct (absorbGroup hs parents).
Qed.

Lemma freshNonNeg_spans h : freshNonNeg h -> spansNonNeg h = true.
Proof.
  destruct h as [n r subs]. intros [Hs Hr]. simpl in Hs, Hr. subst subs.
  rewrite spansNonNeg_eq. simpl. rewrite andb_true_r. by apply Z.leb_le.
Qed.

Lemma absorbRows_nonNeg below : forall first,
  Forall freshNonNeg first ->
  Forall (Forall freshNonNeg) below ->
  Forall (Forall (fun h => remainingSubheaders h <= 1)) (removelast below) ->
  Forall (fun p => spansNonNeg p = true) (absorbRows first below).1 /\
  Forall (fun h => spansNonNeg h = true) (combineGroups (absorbRows first below).2) /\
  (forall bound,
     Forall (fun h => remainingSubheaders h <= bound) first ->
     Forall (fun p => remainingSubheaders p + Z.of_nat (length (subheaders p)) <= bound)
            (absorbRows first below).1).
Proof.
  induction below as [|next below IH]; intros first Hfirst Hbelow Hmid.
  - simpl. split; [|split; [done|]].
    + eapply Forall_impl; [exact Hfirst|]. apply freshNonNeg_spans.
    + intros bound Hb. apply Forall_forall. intros h Hh.
      rewrite Forall_forall in Hfirst, Hb.
      destruct (Hfirst h Hh) as [-> _]. specialize (Hb h Hh). simpl. lia.
  - apply Forall_cons in Hbelow as [Hnext Hbelow].
    assert (Hmid' : Forall (Forall (fun h => remainingSubheaders h <= 1))
                           (removelast below)).
    { destruct below as [|r rs]; [done|].
      change (removelast (next :: r :: rs)) with (next :: removelast (r :: rs)) in Hmid.
      by apply Forall_cons in Hmid as [_ ?]. }
    destruct (IH next Hnext Hbelow Hmid') as (Hinv & Hrows & Hcap).
    assert (Hfew : Forall (fun h => spansNonNeg h = true /\
                                    (length (subheaders h) <= 1)%nat)
                          (absorbRows next below).1).
    { destruct below as [|r rs].
      - simpl. eapply Forall_impl; [exact Hnext|].
        intros h Hh. split; [by apply freshNonNeg_spans|].
        destruct Hh as [-> _]. simpl. lia.
      - change (removelast (next :: r :: rs)) with (next :: removelast (r :: rs)) in Hmid.
        apply Forall_cons in Hmid as [Hle _].
        specialize (Hcap 1 Hle). rewrite Forall_forall in Hinv, Hcap.
        apply Forall_forall. intros h Hh. split; [by apply Hinv|].
        specialize (Hcap h Hh). specialize (Hinv h Hh).
        destruct h as [n r0 subs]. rewrite spansNonNeg_eq in Hinv.
        apply andb_true_iff in Hinv as [Hr _]. apply Z.leb_le in Hr.
        simpl in *. lia. }
    cbn [absorbRows]. destruct (absorbRows next below) as [next' rows'].
    cbn [fst snd] in *.
    assert (Hfirst' : Forall (fun p => spansNonNeg p = true) first).
    { eapply Forall_impl; [exact Hfirst|]. apply freshNonNeg_spans. }
    destruct (absorbGroup_nonNeg next' first Hfew Hfirst') as (H1 & H2).
    assert (H3 : forall bound,
               Forall (fun h => remainingSubheaders h <= bound) first ->
               Forall (fun p => remainingSubheaders p
                                + Z.of_nat (length (subheaders p)) <= bound)
                      (absorbGroup next' first).2).
    { intros bound Hb. apply absorbGroup_capacity.
      apply Forall_forall. intros h Hh. rewrite Forall_forall in Hfirst, Hb.
      destruct (Hfirst h Hh) as [-> _]. specialize (Hb h Hh). simpl. lia. }
    destruct (absorbGroup next' first) as [group' first'']. cbn [fst snd] in *.
    split; [done|]. split; [|done].
    unfold combineGroups in *. cbn [map concat]. by apply Forall_app.
Qed.

(** C3 (as amended).  A header cell starts with the column-span its cell
    declares (0 when the attribute is absent or no number) and without
    children.  Attaching a cell never raises a remaining span.  It keeps
    every remaining span at 0 or above as long as the attached cell has at
    most one child of its own; so, when no declared span is negative and
    every row that is neither the first nor the last declares spans of at
    most 1 (any input of one or two header rows, for one), no remaining
    span in the header tree is negative. *)
Theorem remainingSpan_bounds :
  (forall (opts : Opts) (tr : list Cell),
     Forall (fun h => subheaders h = []) (headerGroupOf opts tr) /\
     map remainingSubheaders (headerGroupOf opts tr)
     = map (fun th => orZero (cell_colspan th)) (filter (fun c => is_th c = true) tr)) /\
  orZero None = 0 /\
  (forall (header : HeaderCell) (parents parents' : list HeaderCell),
     scanParents header parents = Some parents' ->
     Forall2 (fun p p' => name p' = name p /\
                          remainingSubheaders p' <= remainingSubheaders p)
             parents parents') /\
  (forall (header : HeaderCell) (parents parents' : list HeaderCell),
     Forall (fun p => spansNonNeg p = true) parents ->
     spansNonNeg header = true ->
     (length (subheaders header) <= 1)%nat ->
     scanParents header parents = Some parents' ->
     Forall (fun p => spansNonNeg p = true) parents') /\
  (forall groups : list (list HeaderCell),
     Forall (Forall freshNonNeg) groups ->
     Forall (Forall (fun h => remainingSubheaders h <= 1)) (middleRows groups) ->
     Forall (fun h => spansNonNeg h = true) (buildHeaders groups)).
Proof.
  split; [|split; [done|split; [|split]]].
  - intros opts tr. split; [apply headerGroupOf_leaves|].
    unfold headerGroupOf. rewrite <- list_fmap_compose. done.
  - intros header parents parents'. apply scanParents_decreases.
  - intros header parents parents'. apply scanParents_nonNeg.
  - intros groups Hfresh Hmid. destruct groups as [|first below]; [done|].
    apply Forall_cons in Hfresh as [Hfirst Hbelow].
    destruct (absorbRows_nonNeg below first Hfirst Hbelow Hmid) as (H1 & H2 & _).
    unfold buildHeaders. destruct (absorbRows first below) as [first' rows'].
    by apply Forall_app.
Qed.

Lemma remainingSpan_bounds_witness :
  Forall (fun h => spansNonNeg h = true)
         (buildHeaders (map declared [ [("a", 2); ("f", 0)]; [("b", 0); ("c", 0); ("d", 3)] ])).
Proof.
  apply (proj2 (proj2 (proj2 (proj2 remainingSpan_bounds)))).
  - repeat constructor; simpl; lia.
  - simpl. constructor.
Defined.

(** C3 as stated fails: no declared span is negative, and [a] ends with
    a remaining span of -2 (1, less 2 for [b] with its two children, less
    1 for [e]). *)
Lemma remainingSpan_goes_negative :
  Forall (Forall (fun c : string * Z => 0 <= c.2)) overdrawn /\
  map remainingSubheaders (buildHeaders (map declared overdrawn)) = [-2] /\
  ~ Forall (fun h => 0 <= remainingSubheaders h)
           (buildHeaders (map declared overdrawn)).
Proof.
  split; [repeat constructor; simpl; lia|].
  split; [vm_compute; reflexivity|].
  intros H. apply Forall_cons in H as [H _]. vm_compute in H. by apply H.
Qed.

Lemma buildHeaders_follows_rule_witness :
  buildHeaders (map declared overdrawn) = specBuild nonZero (map declared overdrawn).
Proof. exact (proj1 (buildHeaders_follows_rule (map declared overdrawn))). Defined.

Lemma getRows_ignores_tags_witness :
  getRows [mkSection TBody [[mkCell TH " Alice " None; mkCell TD "30" None]]]
    !! 0%nat
  = Some ["Alice"; "30"].
Proof.
  apply (proj1 (proj2 (getRows_ignores_tags
                         [mkSection TBody [[mkCell TH " Alice " None; mkCell TD "30" None]]]
                         (fun _ => TD))
                 0%nat [mkCell TH " Alice " None; mkCell TD "30" None] eq_refl)).
Defined.

(** ** The worked examples of the specification *)

Example two_row_header :
  buildHeaders (map declared [ [("a", 2)]; [("b", 0); ("c", 0)] ])
  = [mkHeader "a" 0 [mkHeader "b" 0 []; mkHeader "c" 0 []]] /\
  (mapRowToHeaders
     (buildHeaders (map declared [ [("a", 2)]; [("b", 0); ("c", 0)] ]))
     [Text "1"; Text "2"]).1.1
  = [("a", VObject [("b", VString "1"); ("c", VString "2")])].
Proof. split; reflexivity. Qed.

Example single_row_is_flat :
  buildHeaders (map declared [ [("a", 0); ("b", 0); ("c", 0)] ])
  = declared [("a", 0); ("b", 0); ("c", 0)].
Proof. reflexivity. Qed.

Example no_header_rows :
  (mapRowToHeaders (buildHeaders []) [Text "p"; Text "q"]).1.1
  = [("unlabelled_0", VString "p"); ("unlabelled_1", VString "q")].
Proof. reflexivity. Qed.

Example more_cells_than_headers :
  (mapRowToHeaders (buildHeaders (map declared [ [("a", 0)] ]))
                   [Text "1"; Text "2"]).1.1
  = [("a", VString "1"); ("unlabelled_0", VString "2")].
Proof. reflexivity. Qed.

Example fewer_cells_than_headers :
  (mapRowToHeaders (buildHeaders (map declared [ [("a", 0); ("b", 0)] ]))
                   [Text "1"]).1.1
  = [("a", VString "1"); ("b", VUndefined)].
Proof. reflexivity. Qed.

Example explicit_header_section :
  parseTable defaultOpts
    [ mkSection THead [ [mkCell TH "Person" (Some 2); mkCell TH "Score" None];
                        [mkCell TH "First  Name" None; mkCell TH "Last Name" None] ];
      mkSection TBody [ [mkCell TD " Ada " None; mkCell TD "Lovelace" None;
                         mkCell TD "10" None] ] ]
  = [ [ ("person", VObject [ ("first_name", VString "Ada");
                             ("last_name", VString "Lovelace") ]);
        ("score", VString "10") ] ].
Proof. vm_compute. reflexivity. Qed.

(** * Further properties of the code *)

(** ** Header tree builder: what becomes of the cells *)

Lemma cellNames_eq n r subs :
  cellNames (mkHeader n r subs) = n :: flat_map cellNames subs.
Proof. reflexivity. Qed.

Lemma scanParents_names header parents : forall parents',
  scanParents header parents = Some parents' ->
  flat_map cellNames parents' ≡ₚ flat_map cellNames parents ++ cellNames header.
Proof.
  induction parents as [|p ps IH]; intros parents' H; [done|].
  cbn [scanParents] in H. destruct (remainingSubheaders p =? 0).
  - destruct (scanParents header ps) as [ps'|]; [|done].
    injection H as <-. cbn [flat_map]. rewrite (IH ps' eq_refl).
    by rewrite app_assoc.
  - injection H as <-. destruct p as [n r subs]. cbn [flat_map].
    rewrite !cellNames_eq. cbn [name subheaders].
    rewrite flat_map_app. cbn [flat_map]. rewrite app_nil_r.
    cbn [app]. f_equiv. rewrite <- !app_assoc. f_equiv. apply Permutation_app_comm.
Qed.

Lemma absorbGroup_names headerGroup : forall parents,
  flat_map cellNames (absorbGroup headerGroup parents).2
    ++ flat_map cellNames (omap id (absorbGroup headerGroup parents).1)
  ≡ₚ flat_map cellNames parents ++ flat_map cellNames headerGroup.
Proof.
  induction headerGroup as [|h hs IH]; intros parents.
  - simpl. by rewrite !app_nil_r.
  - cbn [absorbGroup]. destruct (scanParents h parents) as [parents'|] eqn:E.
    + specialize (IH parents'). destruct (absorbGroup hs parents') as [g ps''].
      cbn [fst snd omap list_omap] in *. cbn [flat_map].
      rewrite IH, (scanParents_names _ _ _ E). by rewrite <- app_assoc.
    + specialize (IH parents). destruct (absorbGroup hs parents) as [g ps''].
      cbn [fst snd] in *. change (omap id (Some h :: g)) with (h :: omap id g).
      cbn [flat_map]. rewrite (Permutation_app_comm (cellNames h)), app_assoc, IH.
      rewrite <- !app_assoc. f_equiv. apply Permutation_app_comm.
Qed.

Lemma absorbRows_names below : forall first,
  flat_map cellNames (absorbRows first below).1
    ++ flat_map cellNames (combineGroups (absorbRows first below).2)
  ≡ₚ flat_map cellNames first ++ flat_map (flat_map cellNames) below.
Proof.
  induction below as [|next below IH]; intros first; [done|].
  cbn [absorbRows]. specialize (IH next).
  destruct (absorbRows next below) as [next' rows']. cbn [fst snd] in IH.
  pose proof (absorbGroup_names next' first) as Hg.
  destruct (absorbGroup next' first) as [g first']. cbn [fst snd] in *.
  unfold combineGroups in *. cbn [map concat flat_map].
  rewrite flat_map_app, app_assoc, Hg, <- app_assoc. f_equiv.
  by rewrite IH.
Qed.

Lemma buildHeaders_names (groups : list (list HeaderCell)) :
  flat_map cellNames (buildHeaders groups)
  ≡ₚ flat_map (flat_map cellNames) groups.
Proof.
  destruct groups as [|first below]; [done|].
  unfold buildHeaders. pose proof (absorbRows_names below first) as H.
  destruct (absorbRows first below) as [first' rows']. cbn [fst snd] in H.
  by rewrite flat_map_app.
Qed.

Lemma headerGroupOf_names opts tr :
  flat_map cellNames (headerGroupOf opts tr) = headerNamesOf opts tr.
Proof.
  unfold headerGroupOf, headerNamesOf.
  induction (filter (fun c => is_th c = true) tr) as [|c l IH]; [done|].
  cbn [map flat_map]. by rewrite IH.
Qed.

(** X1.  Building the header tree loses no header cell and makes none
    twice: the names of all the cells of the tree, read off parents first,
    are the names of the cells of the header rows in another order.  For
    a table they are the normalised texts of the [th] cells of its header
    rows; what a header row holds in [td] cells gives no header. *)
Theorem buildHeaders_keeps_all_cells :
  (forall groups : list (list HeaderCell),
     flat_map cellNames (buildHeaders groups)
     ≡ₚ flat_map (flat_map cellNames) groups) /\
  (forall (opts : Opts) (t : Table),
     flat_map cellNames (getHeaders opts t)
     ≡ₚ flat_map (headerNamesOf opts) (headerRows t)).
Proof.
  split; [apply buildHeaders_names|].
  intros opts t. unfold getHeaders. rewrite buildHeaders_names.
  induction (headerRows t) as [|tr rows IH]; [done|].
  cbn [map flat_map]. by rewrite headerGroupOf_names, IH.
Qed.

Lemma scanParents_keeps_names header parents parents' :
  scanParents header parents = Some parents' ->
  map name parents' = map name parents.
Proof.
  intros H%scanParents_decreases. induction H as [|p p' ps ps' [Hn _] _ IH]; [done|].
  cbn [map]. by rewrite Hn, IH.
Qed.

Lemma absorbGroup_keeps_names headerGroup : forall parents,
  map name (absorbGroup headerGroup parents).2 = map name parents.
Proof.
  induction headerGroup as [|h hs IH]; intros parents; [done|].
  cbn [absorbGroup]. destruct (scanParents h parents) as [parents'|] eqn:E.
  - specialize (IH parents'). destruct (absorbGroup hs parents'). cbn [snd] in *.
    by rewrite IH, (scanParents_keeps_names _ _ _ E).
  - specialize (IH parents). by destruct (absorbGroup hs parents).
Qed.

Lemma absorbRows_keeps_names below first :
  map name (absorbRows first below).1 = map name first.
Proof.
  destruct below as [|next below]; [done|]. cbn [absorbRows].
  destruct (absorbRows next below) as [next' rows'].
  pose proof (absorbGroup_keeps_names next' first) as H.
  by destruct (absorbGroup next' first).
Qed.

(** X2.  The cells of the first header row are the first roots of the
    header tree, in their order and under their names, whatever the rows
    below hold. *)
Theorem first_row_heads_the_roots (first : list HeaderCell)
    (below : list (list HeaderCell)) :
  map name (take (length first) (buildHeaders (first :: below))) = map name first.
Proof.
  unfold buildHeaders. pose proof (absorbRows_keeps_names below first) as H.
  destruct (absorbRows first below) as [first' rows']. cbn [fst] in H.
  assert (Hlen : length first = length first').
  { by rewrite <- (length_map name first), <- H, length_map. }
  by rewrite Hlen, take_app_length.
Qed.

Lemma scanParents_all_zero header parents :
  Forall (fun p => remainingSubheaders p = 0) parents ->
  scanParents header parents = None.
Proof.
  induction 1 as [|p ps Hp _ IH]; [done|].
  cbn [scanParents]. by rewrite Hp, IH.
Qed.

Lemma absorbGroup_all_zero headerGroup parents :
  Forall (fun p => remainingSubheaders p = 0) parents ->
  absorbGroup headerGroup parents = (map Some headerGroup, parents).
Proof.
  intros Hz. induction headerGroup as [|h hs IH]; [done|].
  cbn [absorbGroup]. by rewrite scanParents_all_zero, IH.
Qed.

Lemma absorbRows_all_zero below : forall first,
  Forall (Forall (fun p => remainingSubheaders p = 0)) (removelast (first :: below)) ->
  absorbRows first below = (first, map (map Some) below).
Proof.
  induction below as [|next below IH]; intros first Hz; [done|].
  change (removelast (first :: next :: below))
    with (first :: removelast (next :: below)) in Hz.
  apply Forall_cons in Hz as [Hfirst Hrest].
  cbn [absorbRows]. rewrite (IH next Hrest).
  by rewrite absorbGroup_all_zero.
Qed.

Lemma omap_id_Some (l : list HeaderCell) : omap id (map Some l) = l.
Proof.
  induction l as [|x l IH]; [done|].
  change (omap id (map Some (x :: l))) with (x :: omap id (map Some l)).
  by rewrite IH.
Qed.

Lemma zero_spans_give_flat_tree_of (groups : list (list HeaderCell)) :
  Forall (Forall (fun p => remainingSubheaders p = 0)) (removelast groups) ->
  buildHeaders groups = concat groups.
Proof.
  intros Hz. destruct groups as [|first below]; [done|].
  unfold buildHeaders. rewrite (absorbRows_all_zero below first Hz).
  cbn [concat]. f_equal. unfold combineGroups.
  induction below as [|r rs IH]; [done|].
  cbn [map concat]. rewrite omap_id_Some. f_equal. apply IH.
  destruct rs as [|r' rs'].
  - by apply Forall_cons in Hz as [? _].
  - change (removelast (first :: r :: r' :: rs'))
      with (first :: r :: removelast (r' :: rs')) in Hz.
    apply Forall_cons in Hz as [Hf Hz]. apply Forall_cons in Hz as [_ Hz].
    change (removelast (first :: r' :: rs')) with (first :: removelast (r' :: rs')).
    by constructor.
Qed.

Lemma Forall_removelast {A : Type} (P : A -> Prop) (l : list A) :
  Forall P l -> Forall P (removelast l).
Proof.
  induction 1 as [|x l Hx Hl IH]; [done|].
  destruct l as [|y l']; [constructor|].
  change (removelast (x :: y :: l')) with (x :: removelast (y :: l')).
  by constructor.
Qed.

Lemma removelast_fmap {A B : Type} (f : A -> B) (l : list A) :
  removelast (map f l) = map f (removelast l).
Proof.
  induction l as [|x l IH]; [done|].
  destruct l as [|y l']; [done|].
  change (removelast (map f (x :: y :: l')))
    with (f x :: removelast (map f (y :: l'))).
  rewrite IH. done.
Qed.

(** X3.  When no cell above the last header row has a remaining span
    (no [colspan], or [colspan] 0), no cell is attached to any other: the
    header tree is the cells of all the header rows, in order, all of them
    roots.  So it is for a table whose header cells above the last header
    row declare no column-span. *)
Theorem zero_spans_give_flat_tree :
  (forall groups : list (list HeaderCell),
     Forall (Forall (fun p => remainingSubheaders p = 0)) (removelast groups) ->
     buildHeaders groups = concat groups) /\
  (forall (opts : Opts) (t : Table),
     Forall (Forall (fun c => is_th c = true -> orZero (cell_colspan c) = 0))
            (removelast (headerRows t)) ->
     getHeaders opts t = concat (map (headerGroupOf opts) (headerRows t))).
Proof.
  split; [apply zero_spans_give_flat_tree_of|].
  intros opts t Hz. unfold getHeaders. apply zero_spans_give_flat_tree_of.
  rewrite removelast_fmap. apply Forall_fmap.
  eapply Forall_impl; [exact Hz|]. intros tr Htr. unfold headerGroupOf.
  apply Forall_fmap, Forall_forall. intros c Hc.
  apply list_elem_of_filter in Hc as [Hth Hin]. cbn [remainingSubheaders].
  rewrite Forall_forall in Htr. by apply Htr.
Qed.

Lemma zero_spans_give_flat_tree_witness :
  buildHeaders (map declared [ [("a", 0); ("b", 0)]; [("c", 0)]; [("d", 5)] ])
  = declared [("a", 0); ("b", 0); ("c", 0); ("d", 5)].
Proof.
  rewrite (proj1 zero_spans_give_flat_tree); [reflexivity|].
  repeat constructor.
Defined.

(** ** Header tree builder: how a row is shared out *)

Lemma absorbGroup_skip_zero headerGroup : forall p parents,
  remainingSubheaders p = 0 ->
  absorbGroup headerGroup (p :: parents)
  = ((absorbGroup headerGroup parents).1, p :: (absorbGroup headerGroup parents).2).
Proof.
  induction headerGroup as [|h hs IH]; intros p parents Hp; [done|].
  cbn [absorbGroup scanParents]. rewrite Hp. cbn [Z.eqb].
  destruct (scanParents h parents) as [parents'|]; cbn [fmap option_fmap option_map].
  - rewrite (IH p parents' Hp). by destruct (absorbGroup hs parents').
  - rewrite (IH p parents Hp). by destruct (absorbGroup hs parents).
Qed.

Lemma absorbGroup_skip_zeros headerGroup zeros parents :
  Forall (fun p => remainingSubheaders p = 0) zeros ->
  absorbGroup headerGroup (zeros ++ parents)
  = ((absorbGroup headerGroup parents).1, zeros ++ (absorbGroup headerGroup parents).2).
Proof.
  induction 1 as [|z zeros Hz _ IH].
  - cbn [app]. by destruct (absorbGroup headerGroup parents).
  - cbn [app]. rewrite (absorbGroup_skip_zero _ _ _ Hz), IH. done.
Qed.

Lemma absorbGroup_negative headerGroup : forall p parents,
  remainingSubheaders p < 0 ->
  absorbGroup headerGroup (p :: parents)
  = (replicate (length headerGroup) None,
     mkHeader (name p) (remainingSubheaders p - totalCharge headerGroup)
              (subheaders p ++ headerGroup) :: parents).
Proof.
  induction headerGroup as [|h hs IH]; intros p parents Hp.
  - destruct p as [n r subs]. simpl. by rewrite Z.sub_0_r, app_nil_r.
  - cbn [absorbGroup scanParents].
    destruct (remainingSubheaders p =? 0) eqn:E; [apply Z.eqb_eq in E; lia|].
    pose proof (lengthOrOne_pos (subheaders h)) as Hpos.
    rewrite IH by (simpl; lia). cbn [name remainingSubheaders subheaders length replicate totalCharge].
    rewrite <- app_assoc. cbn [app]. do 3 f_equal. lia.
Qed.

(** X4.  A parent whose remaining span is negative (a negative [colspan],
    or a span overdrawn by a cell with several children) takes every cell
    of the row below that reaches it: none of them stays a root, and the
    parents after it get nothing. *)
Theorem negative_span_takes_all (headerGroup zeros parents : list HeaderCell)
    (p : HeaderCell) :
  Forall (fun z => remainingSubheaders z = 0) zeros ->
  remainingSubheaders p < 0 ->
  absorbGroup headerGroup (zeros ++ p :: parents)
  = (replicate (length headerGroup) None,
     zeros ++ mkHeader (name p) (remainingSubheaders p - totalCharge headerGroup)
                       (subheaders p ++ headerGroup) :: parents).
Proof.
  intros Hz Hp. by rewrite (absorbGroup_skip_zeros _ _ _ Hz), absorbGroup_negative.
Qed.

Lemma negative_span_takes_all_witness :
  absorbGroup (declared [("x", 0); ("y", 0); ("z", 0)])
              (declared [("a", 0)] ++ mkHeader "b" (-1) [] :: declared [("c", 2)])
  = ([None; None; None],
     [ mkHeader "a" 0 [];
       mkHeader "b" (-4) (declared [("x", 0); ("y", 0); ("z", 0)]);
       mkHeader "c" 2 [] ]).
Proof.
  apply (negative_span_takes_all (declared [("x", 0); ("y", 0); ("z", 0)])
           (declared [("a", 0)]) (declared [("c", 2)]) (mkHeader "b" (-1) [])).
  - repeat constructor.
  - reflexivity.
Defined.

Lemma dealOut_length parents : forall cells,
  (length (dealOut parents cells).2 <= length cells)%nat.
Proof.
  induction parents as [|p ps IH]; intros cells; [done|].
  cbn [dealOut]. specialize (IH (drop (Z.to_nat (remainingSubheaders p)) cells)).
  destruct (dealOut ps _) as [ps' unplaced]. cbn [snd] in *.
  rewrite length_drop in IH. lia.
Qed.

(** A parent with [n] columns left takes the first [n] childless cells. *)
Lemma absorbGroup_take (n : nat) : forall p parents cells,
  remainingSubheaders p = Z.of_nat n ->
  Forall (fun c => subheaders c = []) cells ->
  absorbGroup cells (p :: parents)
  = (replicate (length (take n cells)) None
       ++ (absorbGroup (drop n cells) parents).1,
     mkHeader (name p) (remainingSubheaders p - Z.of_nat (length (take n cells)))
              (subheaders p ++ take n cells)
       :: (absorbGroup (drop n cells) parents).2).
Proof.
  induction n as [|n IH]; intros p parents cells Hp Hcells.
  - rewrite absorbGroup_skip_zero by done. rewrite take_0, drop_0.
    destruct p as [nm r subs]. simpl. by rewrite Z.sub_0_r, app_nil_r.
  - destruct Hcells as [|c cs Hc Hcs].
    + destruct p as [nm r subs]. simpl. by rewrite Z.sub_0_r, app_nil_r.
    + cbn [absorbGroup scanParents].
      destruct (remainingSubheaders p =? 0) eqn:E; [apply Z.eqb_eq in E; lia|].
      rewrite Hc. cbn [lengthOrOne].
      rewrite (IH (mkHeader (name p) (remainingSubheaders p - 1) (subheaders p ++ [c]))
                  parents cs); [|simpl; lia|done].
      cbn [name remainingSubheaders subheaders take drop length replicate app].
      rewrite <- app_assoc. cbn [app]. do 3 f_equal. lia.
Qed.

Lemma absorbGroup_dealOut parents : forall cells,
  Forall (fun p => 0 <= remainingSubheaders p) parents ->
  Forall (fun c => subheaders c = []) cells ->
  absorbGroup cells parents
  = (replicate (length cells - length (dealOut parents cells).2) None
       ++ map Some (dealOut parents cells).2,
     (dealOut parents cells).1).
Proof.
  induction parents as [|p ps IH]; intros cells Hps Hcells.
  - cbn [dealOut snd fst]. rewrite Nat.sub_diag. cbn [replicate app].
    rewrite absorbGroup_all_zero by done. done.
  - apply Forall_cons in Hps as [Hp Hps].
    set (n := Z.to_nat (remainingSubheaders p)).
    rewrite (absorbGroup_take n) by (done || (subst n; lia)).
    assert (Hdrop : Forall (fun c => subheaders c = []) (drop n cells))
      by (by apply Forall_drop).
    rewrite (IH (drop n cells) Hps Hdrop).
    pose proof (dealOut_length ps (drop n cells)) as Hlen.
    cbn [dealOut]. fold n. destruct (dealOut ps (drop n cells)) as [ps' unplaced].
    cbn [fst snd] in *. f_equal.
    rewrite app_assoc, <- replicate_add. do 2 f_equal.
    rewrite length_drop in *. rewrite length_take. lia.
Qed.

(** X5.  Two header rows, no negative span above, no children below: the
    cells of the second row are dealt out to the cells of the first from
    the left, each first-row cell taking as many of the cells still left
    as its column-span says and keeping the rest of its span; the cells
    that are left over follow the first row as roots. *)
Theorem two_rows_are_dealt_out (top bottom : list HeaderCell) :
  Forall (fun p => 0 <= remainingSubheaders p) top ->
  Forall (fun c => subheaders c = []) bottom ->
  buildHeaders [top; bottom] = (dealOut top bottom).1 ++ (dealOut top bottom).2.
Proof.
  intros Htop Hbottom. unfold buildHeaders. cbn [absorbRows].
  rewrite (absorbGroup_dealOut top bottom Htop Hbottom).
  f_equal. unfold combineGroups. cbn [map concat]. rewrite app_nil_r.
  generalize (length bottom - length (dealOut top bottom).2)%nat. intros k.
  induction k as [|k IH]; [apply omap_id_Some|exact IH].
Qed.

Lemma two_rows_are_dealt_out_witness :
  buildHeaders (map declared [ [("name", 0); ("address", 2); ("phone", 1)];
                               [("street", 0); ("city", 0); ("mobile", 0); ("fax", 0)] ])
  = [ mkHeader "name" 0 [];
      mkHeader "address" 0 (declared [("street", 0); ("city", 0)]);
      mkHeader "phone" 0 (declared [("mobile", 0)]);
      mkHeader "fax" 0 [] ].
Proof.
  cbn [map]. rewrite two_rows_are_dealt_out; [reflexivity | |].
  - repeat constructor; simpl; lia.
  - repeat constructor.
Defined.

(** ** Header tree builder: how deep the tree gets *)

Lemma depth_le n r subs (d : nat) :
  (depth (mkHeader n r subs) <= S d)%nat <-> Forall (fun c => (depth c <= d)%nat) subs.
Proof.
  change (depth (mkHeader n r subs))
    with (S (foldr (fun c m => Nat.max (depth c) m) 0%nat subs)).
  induction subs as [|c cs IH]; cbn [foldr].
  - split; [constructor|lia].
  - rewrite Forall_cons. split.
    + intros H. split; [lia|]. apply IH. lia.
    + intros [Hc Hcs]. apply IH in Hcs. lia.
Qed.

Lemma scanParents_depth (d : nat) header parents : forall parents',
  (depth header <= d)%nat ->
  Forall (fun p => (depth p <= S d)%nat) parents ->
  scanParents header parents = Some parents' ->
  Forall (fun p => (depth p <= S d)%nat) parents'.
Proof.
  intros parents' Hh Hps. revert parents'.
  induction Hps as [|p ps Hp Hps IH]; intros parents' H; [done|].
  cbn [scanParents] in H. destruct (remainingSubheaders p =? 0).
  - destruct (scanParents header ps) as [ps'|]; [|done].
    injection H as <-. constructor; [done|by apply IH].
  - injection H as <-. constructor; [|done].
    destruct p as [n r subs]. cbn [name remainingSubheaders subheaders].
    apply depth_le. apply depth_le in Hp. apply Forall_app. split; [done|].
    by constructor.
Qed.

Lemma absorbGroup_depth (d : nat) headerGroup : forall parents,
  Forall (fun h => (depth h <= d)%nat) headerGroup ->
  Forall (fun p => (depth p <= S d)%nat) parents ->
  Forall (fun p => (depth p <= S d)%nat) (absorbGroup headerGroup parents).2 /\
  Forall (fun h => (depth h <= d)%nat) (omap id (absorbGroup headerGroup parents).1).
Proof.
  intros parents Hg. revert parents.
  induction Hg as [|h hs Hh _ IH]; intros parents Hps; [done|].
  cbn [absorbGroup]. destruct (scanParents h parents) as [parents'|] eqn:E.
  - destruct (IH parents') as [H1 H2]; [by eapply scanParents_depth|].
    by destruct (absorbGroup hs parents').
  - destruct (IH parents Hps) as [H1 H2].
    destruct (absorbGroup hs parents). cbn [fst snd] in *.
    split; [done|]. by constructor.
Qed.

Lemma absorbRows_depth below : forall first,
  Forall (fun h => subheaders h = []) first ->
  Forall (Forall (fun h => subheaders h = [])) below ->
  Forall (fun p => (depth p <= S (length below))%nat) (absorbRows first below).1 /\
  Forall (fun h => (depth h <= length below)%nat)
         (combineGroups (absorbRows first below).2).
Proof.
  assert (Hfresh : forall (d : nat) (l : list HeaderCell),
             Forall (fun h => subheaders h = []) l ->
             Forall (fun h => (depth h <= S d)%nat) l).
  { intros d l Hl. eapply Forall_impl; [exact Hl|].
    intros [n r subs] Hs. simpl in Hs. subst subs. apply depth_le. constructor. }
  induction below as [|next below IH]; intros first Hfirst Hbelow.
  - cbn [absorbRows fst snd length]. split; [by apply Hfresh|done].
  - apply Forall_cons in Hbelow as [Hnext Hbelow].
    destruct (IH next Hnext Hbelow) as [H1 H2].
    cbn [absorbRows]. destruct (absorbRows next below) as [next' rows'].
    cbn [fst snd length] in *.
    destruct (absorbGroup_depth (S (length below)) next' first H1
                (Hfresh _ _ Hfirst)) as [H3 H4].
    destruct (absorbGroup next' first) as [g first']. cbn [fst snd] in *.
    split; [done|]. unfold combineGroups in *. cbn [map concat].
    apply Forall_app. split; [done|].
    eapply Forall_impl; [exact H2|]. intros h Hh. simpl in Hh. lia.
Qed.

Lemma buildHeaders_depth (groups : list (list HeaderCell)) :
  Forall (Forall (fun h => subheaders h = [])) groups ->
  Forall (fun h => (depth h <= length groups)%nat) (buildHeaders groups).
Proof.
  intros Hfresh. destruct groups as [|first below]; [done|].
  apply Forall_cons in Hfresh as [Hfirst Hbelow].
  destruct (absorbRows_depth below first Hfirst Hbelow) as [H1 H2].
  unfold buildHeaders. destruct (absorbRows first below) as [first' rows'].
  cbn [fst snd length] in *. apply Forall_app. split; [done|].
  eapply Forall_impl; [exact H2|]. intros h Hh. simpl in Hh. lia.
Qed.

(** X6.  The header tree of a table is never deeper than the table has
    header rows: a root counts as level 1, and with [n] header rows no
    header lies below level [n]. *)
Theorem tree_depth_bounded_by_rows (opts : Opts) (t : Table) :
  Forall (fun h => (depth h <= length (headerRows t))%nat) (getHeaders opts t).
Proof.
  unfold getHeaders.
  rewrite <- (length_map (headerGroupOf opts) (headerRows t)).
  apply buildHeaders_depth, Forall_forall.
  intros g [tr [-> _]]%list_elem_of_fmap. apply headerGroupOf_leaves.
Qed.

(** ** Row mapper: the loop that finds a free name *)

Lemma append_assoc (s t u : string) : (s +:+ t) +:+ u = s +:+ (t +:+ u).
Proof.
  induction s as [|c s IH]; [done|].
  change (String c ((s +:+ t) +:+ u) = String c (s +:+ (t +:+ u))).
  by rewrite IH.
Qed.

Lemma append_nil_r (s : string) : s +:+ "" = s.
Proof.
  induction s as [|c s IH]; [done|].
  change (String c (s +:+ "") = String c s). by rewrite IH.
Qed.

Lemma renameLoop_extends o : forall fuel name i,
  exists suffix, renameLoop fuel o name i = name +:+ suffix.
Proof.
  induction fuel as [|fuel IH]; intros name i.
  - exists "". by rewrite append_nil_r.
  - cbn [renameLoop]. destruct (JsObject.truthyAt o name).
    + destruct (IH (name +:+ "_" +:+ JsString.ofNat i) (i + 2)%nat) as [suffix ->].
      exists (("_" +:+ JsString.ofNat i) +:+ suffix). by rewrite append_assoc.
    + exists "". by rewrite append_nil_r.
Qed.

(** X7.  The loop of line 113 always ends.  The name it ends with is the
    header's name with something appended (nothing when the record holds
    nothing truthy under the name), the record holds nothing truthy under
    it, and it is never [__proto__]. *)
Theorem rename_loop_ends (o : Obj) (name : string) :
  (forall fuel : nat,
     (S (length o + length JsObject.inheritedNames) <= fuel)%nat ->
     renameLoop fuel o name 0 = freshName o name) /\
  JsObject.truthyAt o (freshName o name) = false /\
  (exists suffix, freshName o name = name +:+ suffix) /\
  (JsObject.truthyAt o name = false -> freshName o name = name) /\
  freshName o name <> "__proto__".
Proof.
  split; [|split; [|split; [|split]]].
  - intros fuel Hfuel. unfold freshName. apply renameLoop_enough; [|done].
    pose proof (countLonger_le (String.length name) (candidates o)) as H.
    assert (Hc : length (candidates o)
                 = (length o + length JsObject.inheritedNames)%nat).
    { unfold candidates. by rewrite length_app, length_map. }
    lia.
  - apply freshName_falsy.
  - apply renameLoop_extends.
  - apply freshName_fixed.
  - apply freshName_not_proto.
Qed.

Lemma rename_loop_ends_witness :
  freshName [("total", VString "")] "total" = "total".
Proof.
  apply (proj1 (proj2 (proj2 (proj2 (rename_loop_ends [("total", VString "")] "total"))))).
  reflexivity.
Defined.

(** ** Row mapper: forests, flat headers, and headers with plain names *)

(** X8.  Mapping a forest is mapping its first part and then, with the
    record and the rest of the row that this leaves, its second part. *)
Theorem mapHeaders_app (hs1 hs2 : list HeaderCell) (o : Obj) (row : list RowItem) :
  mapHeaders (hs1 ++ hs2) o row
  = ((mapHeaders hs1 o row).1.1
       ++ (mapHeaders hs2 (mapHeaders hs1 o row).1.2 (mapHeaders hs1 o row).2).1.1,
     (mapHeaders hs2 (mapHeaders hs1 o row).1.2 (mapHeaders hs1 o row).2).1.2,
     (mapHeaders hs2 (mapHeaders hs1 o row).1.2 (mapHeaders hs1 o row).2).2).
Proof.
  revert o row. induction hs1 as [|h hs1 IH]; intros o row.
  - cbn [app mapHeaders fst snd]. by destruct (mapHeaders hs2 o row) as [[? ?] ?].
  - cbn [app]. rewrite !mapHeaders_cons, IH. done.
Qed.

Lemma getOwn_set_ne o k k' v :
  k <> k' -> JsObject.getOwn (JsObject.set o k v) k' = JsObject.getOwn o k'.
Proof.
  intros Hne. unfold JsObject.set. destruct (String.eqb k "__proto__"); [done|].
  by apply JsObjectFacts.getOwn_setOwn_ne.
Qed.

Lemma getOwn_absent (o : Obj) k : k ∉ map fst o -> JsObject.getOwn o k = None.
Proof.
  induction o as [|[k' v] o IH]; [done|]. cbn [map fst JsObject.getOwn].
  intros [Hne Hin]%not_elem_of_cons.
  destruct (String.eqb k k') eqn:E; [by apply String.eqb_eq in E|]. by apply IH.
Qed.

Lemma valueAt_shift row : (shift row).1 = valueAt row 0.
Proof. by destruct row. Qed.

Lemma mapHeaders_flat hs : forall o row,
  Forall (fun h => subheaders h = []) hs ->
  NoDup (map name hs) ->
  "__proto__" ∉ map name hs ->
  (forall n, n ∈ map name hs -> JsObject.getOwn o n = None) ->
  mapHeaders hs o row
  = (hs, o ++ imap (fun i h => (name h, valueAt row i)) hs, drop (length hs) row).
Proof.
  induction hs as [|h hs IH]; intros o row Hleaf Hnd Hproto Hfresh.
  - cbn [mapHeaders imap length]. by rewrite app_nil_r, drop_0.
  - apply Forall_cons in Hleaf as [Hh Hleaf]. cbn [map] in *.
    apply NoDup_cons in Hnd as [Hnotin Hnd].
    apply not_elem_of_cons in Hproto as [Hp Hproto].
    destruct h as [n r subs]. cbn [name subheaders] in *. subst subs.
    rewrite mapHeaders_cons, mapHeader_leaf. cbn [fst snd].
    assert (Hset : JsObject.set o n (shift row).1 = o ++ [(n, valueAt row 0)]).
    { unfold JsObject.set. destruct (String.eqb n "__proto__") eqn:E.
      - apply String.eqb_eq in E. congruence.
      - rewrite JsObjectFacts.setOwn_fresh, valueAt_shift; [done|].
        apply Hfresh. left. }
    rewrite Hset, shift_row, IH; [|done|done|done|].
    + cbn [fst snd length]. rewrite imap_cons, drop_drop, <- app_assoc.
      cbn [app name]. do 4 f_equal.
      apply imap_ext. intros i x _. cbn. f_equal. unfold valueAt.
      by rewrite lookup_drop.
    + intros k Hk. rewrite JsObjectFacts.getOwn_app_fresh.
      * cbn [JsObject.getOwn]. destruct (String.eqb k n) eqn:E; [|done].
        apply String.eqb_eq in E. congruence.
      * apply Hfresh. by right.
Qed.

(** A flat header with pairwise distinct names, none of them
    [__proto__] or of the form [unlabelled_<i>]: the assignments made, in
    the order in which the mapper makes them, are one for every header,
    of the value at its position in the row ([undefined] past the end of
    the row), and then those of the further values of the row under
    [unlabelled_0], [unlabelled_1], ...; the headers are left as they
    were. *)
Lemma flat_header_record (hs : list HeaderCell) (row : list RowItem) :
  Forall (fun h => subheaders h = []) hs ->
  NoDup (map name hs) ->
  "__proto__" ∉ map name hs ->
  (forall i, unlabelled i ∉ map name hs) ->
  mapRowToHeaders hs row
  = (imap (fun i h => (name h, valueAt row i)) hs
       ++ imap (fun i x => (unlabelled i, valueOf x)) (drop (length hs) row),
     hs, drop (length hs) row).
Proof.
  intros Hleaf Hnd Hproto Hunl.
  rewrite mapRowToHeaders_eq, mapHeaders_flat by done.
  cbn [fst snd app]. f_equal. f_equal.
  rewrite addUnlabelled_fresh; [done|].
  intros j _. apply getOwn_absent. rewrite fmap_imap.
  assert (Hnames : imap (fun n => fst ∘ (fun h : HeaderCell => (name h, valueAt row n))) hs
                   = map name hs).
  { rewrite (imap_ext _ (const name)); [apply imap_const|done]. }
  simpl. rewrite Hnames. apply Hunl.
Qed.

Lemma plainTree_eq n r subs :
  plainTree (mkHeader n r subs) = plainLevel subs && forallb plainTree subs.
Proof. reflexivity. Qed.

Lemma truthyAt_absent o k :
  JsObject.getOwn o k = None -> JsObject.inherited k = false ->
  JsObject.truthyAt o k = false.
Proof.
  intros Hg Hi. unfold JsObject.truthyAt. rewrite Hg, Hi.
  destruct (String.eqb k "__proto__") eqn:E; [|done].
  apply String.eqb_eq in E. subst k. discriminate Hi.
Qed.

(** Headers with plain names among keys that are not in the record yet:
    the mapper leaves the headers as they are and touches no key but
    theirs. *)
Lemma mapHeaders_plain_of (P := fun h =>
    plainTree h = true ->
    forall o row,
      (subheaders h <> [] -> JsObject.truthyAt o (name h) = false) ->
      (mapHeader h o row).1.1 = h /\
      forall k, k <> name h ->
        JsObject.getOwn (mapHeader h o row).1.2 k = JsObject.getOwn o k) hs :
  Forall P hs ->
  plainLevel hs = true ->
  forallb plainTree hs = true ->
  forall o row,
    (forall h, h ∈ hs -> JsObject.getOwn o (name h) = None) ->
    (mapHeaders hs o row).1.1 = hs /\
    forall k, k ∉ map name hs ->
      JsObject.getOwn (mapHeaders hs o row).1.2 k = JsObject.getOwn o k.
Proof.
  induction 1 as [|h hs Hh _ IH]; intros Hlevel Htrees o row Hfresh; [done|].
  unfold plainLevel in Hlevel. cbn [map forallb] in Hlevel, Htrees.
  apply andb_true_iff in Hlevel as [Hnd Hnames].
  apply bool_decide_eq_true in Hnd. apply NoDup_cons in Hnd as [Hnotin Hnd].
  apply andb_true_iff in Hnames as [Hname Hnames].
  apply andb_true_iff in Htrees as [Htree Htrees].
  destruct (Hh Htree o row) as [Hsame Hframe].
  { intros Hsub. apply truthyAt_absent; [apply Hfresh; left|].
    destruct (subheaders h); [done|]. by apply negb_true_iff in Hname. }
  destruct (IH) with (o := (mapHeader h o row).1.2) (row := (mapHeader h o row).2)
    as [Hrest Hframe'].
  { unfold plainLevel. rewrite Hnames, andb_true_r. by apply bool_decide_eq_true. }
  { done. }
  { intros h2 Hh2. rewrite Hframe; [apply Hfresh; by right|].
    intros E. apply Hnotin. rewrite <- E. by apply list_elem_of_fmap_2. }
  rewrite mapHeaders_cons. cbn [fst snd map]. split; [by rewrite Hsame, Hrest|].
  intros k [Hk1 Hk2]%not_elem_of_cons. by rewrite Hframe', Hframe.
Qed.

Lemma mapHeader_plain h :
  plainTree h = true ->
  forall o row,
    (subheaders h <> [] -> JsObject.truthyAt o (name h) = false) ->
    (mapHeader h o row).1.1 = h /\
    forall k, k <> name h ->
      JsObject.getOwn (mapHeader h o row).1.2 k = JsObject.getOwn o k.
Proof.
  induction h as [n r subs IH] using header_ind. intros Hplain o row Hfalsy.
  destruct subs as [|s ss].
  - rewrite mapHeader_leaf. cbn [fst snd name]. split; [done|].
    intros k Hk. by apply getOwn_set_ne.
  - rewrite plainTree_eq in Hplain. apply andb_true_iff in Hplain as [Hlevel Htrees].
    rewrite mapHeader_node. cbn [fst snd name].
    rewrite (freshName_fixed o n) by (by apply Hfalsy).
    destruct (mapHeaders_plain_of (s :: ss) IH Hlevel Htrees [] row) as [Hsubs _]; [done|].
    rewrite Hsubs. split; [done|].
    intros k Hk. by apply getOwn_set_ne.
Qed.

Lemma mapRowToHeaders_plain hs row :
  plainForest hs = true -> (mapRowToHeaders hs row).1.2 = hs.
Proof.
  unfold plainForest. intros [Hlevel Htrees]%andb_true_iff.
  rewrite mapRowToHeaders_eq. cbn [fst snd].
  apply (mapHeaders_plain_of hs); [|done|done|done].
  apply Forall_forall. intros h _. apply mapHeader_plain.
Qed.

(** X9.  When the names of sibling headers differ and no header that has
    subheaders bears a name that every object inherits ([constructor],
    [toString], ...), mapping a row renames nothing: the headers stay as
    built, and every row of a table is mapped as if it were the only
    one. *)
Theorem plain_headers_map_rows_independently (hs : list HeaderCell)
    (rows : list (list RowItem)) :
  plainForest hs = true ->
  (forall row, (mapRowToHeaders hs row).1.2 = hs) /\
  mapRowsToHeaders hs rows = map (fun row => (mapRowToHeaders hs row).1.1) rows.
Proof.
  intros Hplain. split; [intros row; by apply mapRowToHeaders_plain|].
  induction rows as [|row rows IH]; [done|].
  cbn [mapRowsToHeaders map].
  pose proof (mapRowToHeaders_plain hs row Hplain) as Hsame.
  destruct (mapRowToHeaders hs row) as [[record hs'] rest]. cbn [fst snd] in *.
  subst hs'. by rewrite IH.
Qed.

Lemma plain_headers_map_rows_independently_witness :
  mapRowsToHeaders
    (buildHeaders (map declared [ [("a", 2); ("n", 0)]; [("b", 0); ("c", 0)] ]))
    [ [Text "1"; Text "2"; Text "3"]; [Text "4"] ]
  = [ [("a", VObject [("b", VString "1"); ("c", VString "2")]); ("n", VString "3")];
      [("a", VObject [("b", VString "4"); ("c", VUndefined)]); ("n", VUndefined)] ].
Proof.
  rewrite (proj2 (plain_headers_map_rows_independently
                    (buildHeaders (map declared [ [("a", 2); ("n", 0)];
                                                  [("b", 0); ("c", 0)] ]))
                    [ [Text "1"; Text "2"; Text "3"]; [Text "4"] ]
                    ltac:(vm_compute; reflexivity))).
  reflexivity.
Defined.

(** ** The parser: rows in, records out *)

Lemma mapRowsToHeaders_length rows : forall hs,
  length (mapRowsToHeaders hs rows) = length rows.
Proof.
  induction rows as [|row rows IH]; intros hs; [done|].
  cbn [mapRowsToHeaders]. destruct (mapRowToHeaders hs row) as [[record hs'] rest].
  cbn [length]. by rewrite IH.
Qed.

Lemma parseTable_length opts t :
  length (parseTable opts t) = length (rowsOf TBody t).
Proof.
  unfold parseTable, getRows. by rewrite mapRowsToHeaders_length, !length_map.
Qed.

Lemma rowsOf_app k (t1 t2 : Table) : rowsOf k (t1 ++ t2) = rowsOf k t1 ++ rowsOf k t2.
Proof. unfold rowsOf. by rewrite filter_app, map_app, concat_app. Qed.

Lemma rowsOf_concat k (matched : list Table) :
  rowsOf k (concat matched) = concat (map (rowsOf k) matched).
Proof.
  induction matched as [|t ts IH]; [done|].
  cbn [concat map]. by rewrite rowsOf_app, IH.
Qed.

(** X10.  The parser gives as many records as the body sections of the
    table have rows: a table without body rows gives no record, whatever
    its header.  So it is for each table of [parseAllTables], which gives
    one list of records per table; and [parseTable(selector)] gives as
    many records as all the tables that match have body rows, and the
    empty list, not an error, when nothing matches. *)
Theorem one_record_per_body_row (opts : Opts) :
  (forall t : Table, length (parseTable opts t) = length (rowsOf TBody t)) /\
  (forall t : Table, rowsOf TBody t = [] -> parseTable opts t = []) /\
  (forall tables : list Table,
     map length (parseAllTables opts tables)
     = map (fun t => length (rowsOf TBody t)) tables) /\
  (forall matched : list Table,
     length (parseTableSelected opts matched)
     = length (concat (map (rowsOf TBody) matched))) /\
  parseTableSelected opts [] = [].
Proof.
  split; [apply parseTable_length|]. split; [|split; [|split]].
  - intros t Hrows. apply length_zero_iff_nil.
    by rewrite parseTable_length, Hrows.
  - intros tables. unfold parseAllTables. rewrite <- list_fmap_compose.
    apply list_fmap_ext. intros _ t _. apply parseTable_length.
  - intros matched. unfold parseTableSelected.
    by rewrite parseTable_length, rowsOf_concat.
  - reflexivity.
Qed.

Lemma one_record_per_body_row_witness :
  parseTable defaultOpts
    [mkSection THead [[mkCell TH "a" None]]; mkSection TFoot [[mkCell TD "sum" None]]]
  = [].
Proof.
  apply (proj1 (proj2 (one_record_per_body_row defaultOpts))). reflexivity.
Defined.

Lemma headerGroupOf_no_th opts tr :
  Forall (fun c => is_th c = false) tr -> headerGroupOf opts tr = [].
Proof.
  intros H. unfold headerGroupOf.
  replace (filter (fun c => is_th c = true) tr) with (@nil Cell); [done|].
  symmetry. induction H as [|c l Hc _ IH]; [done|].
  rewrite filter_cons, decide_False; [done|]. by rewrite Hc.
Qed.

Lemma mapRowsToHeaders_no_headers (rows : list (list string)) :
  mapRowsToHeaders [] (map (map Text) rows) = map unlabelledRecord rows.
Proof.
  induction rows as [|texts rows IH]; [done|].
  cbn [map mapRowsToHeaders]. rewrite mapRowToHeaders_eq.
  cbn [mapHeaders fst snd]. rewrite IH. f_equal.
  rewrite addUnlabelled_fresh by done. cbn [app].
  unfold unlabelledRecord. by rewrite imap_fmap.
Qed.

(** X11.  When the header rows of a table hold no [th] cell (a plain
    table of [td] cells, say), there are no headers, and every body row
    becomes the record of its trimmed texts under [unlabelled_0],
    [unlabelled_1], ... in order. *)
Theorem no_header_cells_no_labels (opts : Opts) (t : Table) :
  Forall (Forall (fun c => is_th c = false)) (headerRows t) ->
  getHeaders opts t = [] /\
  parseTable opts t = map unlabelledRecord (getRows t).
Proof.
  intros Hno.
  assert (Hh : getHeaders opts t = []).
  { unfold getHeaders.
    assert (Hg : Forall (fun g => g = []) (map (headerGroupOf opts) (headerRows t))).
    { apply Forall_fmap. eapply Forall_impl; [exact Hno|].
      intros tr Htr. by apply headerGroupOf_no_th. }
    rewrite zero_spans_give_flat_tree_of.
    - induction Hg as [|g gs -> _ IH]; [done|exact IH].
    - apply Forall_removelast. eapply Forall_impl; [exact Hg|]. by intros g ->. }
  split; [exact Hh|].
  unfold parseTable. rewrite Hh. apply mapRowsToHeaders_no_headers.
Qed.

Lemma no_header_cells_no_labels_witness :
  parseTable defaultOpts plainTable
  = [ [("unlabelled_0", VString "p"); ("unlabelled_1", VString "q")];
      [("unlabelled_0", VString "r")] ].
Proof.
  assert (H : Forall (Forall (fun c => is_th c = false)) (headerRows plainTable)).
  { change (headerRows plainTable)
      with [[mkCell TD "p" None; mkCell TD " q " None]].
    repeat constructor. }
  rewrite (proj2 (no_header_cells_no_labels defaultOpts plainTable H)).
  reflexivity.
Defined.

(** ** Keys and values as the parser hands them out *)

(** X12.  What each option of the key normaliser promises holds of the
    finished key, the later steps notwithstanding (for a replacement that
    is a boolean or a literal text without whitespace, in lower case when
    keys are lower-cased): with [trim_keys] the key neither starts nor
    ends with whitespace; with [lowercase_keys] it is in lower case; with
    [remove_double_whitespaces] it has no two whitespace characters in a
    row; with [replace_whitespaces_keys] it has no whitespace at all. *)
Theorem normalizeKey_guarantees (opts : Opts) (s : string) :
  stableReplacement opts ->
  (trim_keys opts = true ->
   JsString.startClean (normalizeKey opts s) = true /\
   JsString.endClean (normalizeKey opts s) = true) /\
  (lowercase_keys opts = true ->
   JsString.toLowerCase (normalizeKey opts s) = normalizeKey opts s) /\
  (remove_double_whitespaces opts = true ->
   JsString.noRun (normalizeKey opts s) = true) /\
  (replacementOf (replace_whitespaces_keys opts) <> None ->
   JsString.noSpace (normalizeKey opts s) = true).
Proof.
  intros Hstable.
  destruct (normalizeKey_fixed opts Hstable s) as (Ht & Hl & Hc & Hr).
  cbv zeta in *. split; [|split; [|split]].
  - intros E. rewrite E in Ht. rewrite <- Ht. apply JsStringFacts.trim_is_clean.
  - intros E. by rewrite E in Hl.
  - intros E. rewrite E in Hc. rewrite <- Hc.
    apply JsStringFacts.collapseFrom_shape.
  - intros Hrepl. unfold normalizeKey.
    destruct (replacementOf (replace_whitespaces_keys opts)) as [repl|] eqn:E; [|done].
    destruct (replacement_stable opts Hstable repl E) as (Hd & Hs & _).
    by apply JsStringFacts.replaceFrom_noSpace_out.
Qed.

Lemma normalizeKey_guarantees_witness :
  JsString.noSpace (normalizeKey defaultOpts "  Unit   Price (EUR) ") = true.
Proof.
  apply (proj2 (proj2 (proj2 (normalizeKey_guarantees defaultOpts
                                "  Unit   Price (EUR) " I)))).
  discriminate.
Defined.

Lemma trim_idem s : JsString.trim (JsString.trim s) = JsString.trim s.
Proof.
  destruct (JsStringFacts.trim_is_clean s). by apply JsStringFacts.trim_clean.
Qed.

(** X13.  Every value of every flat row is trimmed: it neither starts nor
    ends with whitespace, and trimming it again changes nothing.  Inside,
    the text is as the cell has it (case and inner whitespace are kept). *)
Theorem flat_row_values_are_trimmed (t : Table) (row : list string) (v : string) :
  row ∈ getRows t -> v ∈ row ->
  JsString.trim v = v /\
  JsString.startClean v = true /\ JsString.endClean v = true /\
  exists tr c, tr ∈ rowsOf TBody t /\ c ∈ tr /\ v = JsString.trim (cell_text c).
Proof.
  unfold getRows.
  intros [tr [-> Htr]]%list_elem_of_fmap [c [-> Hc]]%list_elem_of_fmap.
  split; [apply trim_idem|].
  destruct (JsStringFacts.trim_is_clean (cell_text c)) as [H1 H2].
  split; [done|]. split; [done|]. by exists tr, c.
Qed.

Lemma flat_row_values_are_trimmed_witness :
  JsString.trim "q" = "q".
Proof.
  apply (proj1 (flat_row_values_are_trimmed plainTable ["p"; "q"] "q"
                  ltac:(vm_compute; left) ltac:(right; left))).
Defined.

(** ** The parser on a table with one header row *)

Lemma headerGroupOf_name opts tr :
  map name (headerGroupOf opts tr) = headerNamesOf opts tr.
Proof. unfold headerGroupOf, headerNamesOf. by rewrite <- list_fmap_compose. Qed.

Lemma leaves_plainForest hs :
  Forall (fun h => subheaders h = []) hs ->
  NoDup (map name hs) ->
  plainForest hs = true.
Proof.
  intros Hleaf Hnd. unfold plainForest, plainLevel.
  rewrite (bool_decide_eq_true_2 _ Hnd). cbn [andb].
  apply andb_true_iff. split; apply forallb_forall; intros h Hh;
    apply list_elem_of_In in Hh; rewrite Forall_forall in Hleaf;
    specialize (Hleaf h Hh).
  - by rewrite Hleaf.
  - destruct h as [n r subs]. simpl in Hleaf. by subst subs.
Qed.

Lemma mapRowsToHeaders_unchanged hs rows :
  (forall row, (mapRowToHeaders hs row).1.2 = hs) ->
  mapRowsToHeaders hs rows = map (fun row => (mapRowToHeaders hs row).1.1) rows.
Proof.
  intros Hsame. induction rows as [|row rows IH]; [done|].
  cbn [mapRowsToHeaders map]. specialize (Hsame row).
  destruct (mapRowToHeaders hs row) as [[record hs'] rest]. cbn [fst snd] in *.
  subst hs'. by rewrite IH.
Qed.

(** ** Row mapper: the record of a tree with plain names *)

Lemma recordEntry_leaf n r row :
  recordEntry (mkHeader n r []) row = (n, valueAt row 0).
Proof. reflexivity. Qed.

Lemma recordEntry_node n r s ss row :
  recordEntry (mkHeader n r (s :: ss)) row
  = (n, VObject (recordEntries (s :: ss) row)).
Proof. reflexivity. Qed.

Lemma recordEntry_fst h row : (recordEntry h row).1 = name h.
Proof. destruct h as [n r [|s ss]]; reflexivity. Qed.

Lemma namesAvoid_eq k n r subs :
  namesAvoid k (mkHeader n r subs)
  = negb (String.eqb n k) && forallb (namesAvoid k) subs.
Proof. reflexivity. Qed.

Lemma set_fresh o k v :
  k <> "__proto__" -> JsObject.getOwn o k = None ->
  JsObject.set o k v = o ++ [(k, v)].
Proof.
  intros Hk Hfresh. unfold JsObject.set.
  destruct (String.eqb k "__proto__") eqn:E; [by apply String.eqb_eq in E|].
  by apply JsObjectFacts.setOwn_fresh.
Qed.

Lemma getOwn_snoc_fresh o k k' v :
  JsObject.getOwn o k' = None -> k' <> k ->
  JsObject.getOwn (o ++ [(k, v)]) k' = None.
Proof.
  intros Hfresh Hne. rewrite JsObjectFacts.getOwn_app_fresh by done.
  cbn [JsObject.getOwn]. destruct (String.eqb k' k) eqn:E; [|done].
  by apply String.eqb_eq in E.
Qed.

Lemma mapHeaders_mirror_of (P := fun h =>
    plainTree h = true -> namesAvoid "__proto__" h = true ->
    forall o row,
      JsObject.getOwn o (name h) = None ->
      (subheaders h <> [] -> JsObject.inherited (name h) = false) ->
      mapHeader h o row = (h, o ++ [recordEntry h row], drop (leafCount h) row)) hs :
  Forall P hs ->
  plainLevel hs = true ->
  forallb plainTree hs = true ->
  forallb (namesAvoid "__proto__") hs = true ->
  forall o row,
    (forall h, h ∈ hs -> JsObject.getOwn o (name h) = None) ->
    mapHeaders hs o row = (hs, o ++ recordEntries hs row, drop (leafCounts hs) row).
Proof.
  induction 1 as [|h hs Hh _ IH]; intros Hlevel Htrees Havoid o row Hfresh.
  - cbn. by rewrite app_nil_r.
  - unfold plainLevel in Hlevel. cbn [map forallb] in Hlevel, Htrees, Havoid.
    apply andb_true_iff in Hlevel as [Hnd Hnames].
    apply bool_decide_eq_true in Hnd. apply NoDup_cons in Hnd as [Hnotin Hnd].
    apply andb_true_iff in Hnames as [Hname Hnames].
    apply andb_true_iff in Htrees as [Htree Htrees].
    apply andb_true_iff in Havoid as [Hav Havoid].
    rewrite mapHeaders_cons, (Hh Htree Hav o row).
    + cbn [fst snd]. rewrite IH; [| |done|done|].
      * cbn [recordEntries leafCounts]. by rewrite <- app_assoc, drop_drop.
      * unfold plainLevel. rewrite Hnames, andb_true_r. by apply bool_decide_eq_true.
      * intros h2 Hh2. rewrite (surjective_pairing (recordEntry h row)).
        rewrite recordEntry_fst.
        apply getOwn_snoc_fresh; [apply Hfresh; by right|].
        intros E. apply Hnotin. rewrite <- E. by apply list_elem_of_fmap_2.
    + apply Hfresh. left.
    + intros Hsub. destruct (subheaders h); [done|]. by apply negb_true_iff in Hname.
Qed.

Lemma mapHeader_mirror h :
  plainTree h = true -> namesAvoid "__proto__" h = true ->
  forall o row,
    JsObject.getOwn o (name h) = None ->
    (subheaders h <> [] -> JsObject.inherited (name h) = false) ->
    mapHeader h o row = (h, o ++ [recordEntry h row], drop (leafCount h) row).
Proof.
  induction h as [n r subs IH] using header_ind.
  intros Hplain Havoid o row Hfresh Hinh.
  rewrite namesAvoid_eq in Havoid. apply andb_true_iff in Havoid as [Hn Havoid].
  apply negb_true_iff, String.eqb_neq in Hn. cbn [name subheaders] in *.
  destruct subs as [|s ss].
  - rewrite mapHeader_leaf, recordEntry_leaf, leafCount_leaf, shift_row, valueAt_shift.
    by rewrite set_fresh.
  - rewrite plainTree_eq in Hplain. apply andb_true_iff in Hplain as [Hlevel Htrees].
    rewrite mapHeader_node, recordEntry_node, leafCount_node.
    rewrite (freshName_fixed o n) by (apply truthyAt_absent; [done|by apply Hinh]).
    rewrite (mapHeaders_mirror_of (s :: ss) IH Hlevel Htrees Havoid [] row) by done.
    cbn [fst snd app]. by rewrite set_fresh.
Qed.

(** * What the record holds *)

(** ** One level of the record *)


(** The mapper writes under the name that the header ends with, and
    nowhere else in the record it is given. *)
Lemma mapHeader_frame h o row k :
  k <> name (mapHeader h o row).1.1 ->
  JsObject.getOwn (mapHeader h o row).1.2 k = JsObject.getOwn o k.
Proof.
  destruct h as [n r [|s ss]].
  - rewrite mapHeader_leaf. cbn [fst snd name]. intros Hk. by apply getOwn_set_ne.
  - rewrite mapHeader_node. cbn [fst snd name]. intros Hk. by apply getOwn_set_ne.
Qed.

Lemma mapHeaders_frame hs : forall o row k,
  k ∉ map name (mapHeaders hs o row).1.1 ->
  JsObject.getOwn (mapHeaders hs o row).1.2 k = JsObject.getOwn o k.
Proof.
  induction hs as [|h hs IH]; intros o row k Hk; [done|].
  rewrite mapHeaders_cons in Hk |- *. cbn [fst snd map] in *.
  apply not_elem_of_cons in Hk as [Hk1 Hk2].
  by rewrite IH, mapHeader_frame.
Qed.

Lemma mapHeader_binds h o row :
  JsObject.getOwn (mapHeader h o row).1.2 (name (mapHeader h o row).1.1)
  = match subheaders h with
    | [] => if String.eqb (name h) "__proto__"
            then JsObject.getOwn o (name h)
            else Some (valueAt row 0)
    | subs => Some (VObject (mapHeaders subs [] row).1.2)
    end.
Proof.
  destruct h as [n r [|s ss]].
  - rewrite mapHeader_leaf. cbn [fst snd name subheaders].
    unfold JsObject.set. destruct (String.eqb n "__proto__"); [done|].
    by rewrite JsObjectFacts.getOwn_setOwn_eq, valueAt_shift.
  - rewrite mapHeader_node. cbn [fst snd name subheaders].
    unfold JsObject.set.
    destruct (String.eqb (freshName o n) "__proto__") eqn:E.
    + apply String.eqb_eq in E. by destruct (freshName_not_proto o n).
    + apply JsObjectFacts.getOwn_setOwn_eq.
Qed.

Lemma mapHeaders_split pre : forall h post o row,
  mapHeaders (pre ++ h :: post) o row
  = ((mapHeaders pre o row).1.1
       ++ (mapHeader h (mapHeaders pre o row).1.2 (mapHeaders pre o row).2).1.1
       :: (mapHeaders post
             (mapHeader h (mapHeaders pre o row).1.2 (mapHeaders pre o row).2).1.2
             (mapHeader h (mapHeaders pre o row).1.2 (mapHeaders pre o row).2).2).1.1,
     (mapHeaders post
        (mapHeader h (mapHeaders pre o row).1.2 (mapHeaders pre o row).2).1.2
        (mapHeader h (mapHeaders pre o row).1.2 (mapHeaders pre o row).2).2).1.2,
     (mapHeaders post
        (mapHeader h (mapHeaders pre o row).1.2 (mapHeaders pre o row).2).1.2
        (mapHeader h (mapHeaders pre o row).1.2 (mapHeaders pre o row).2).2).2).
Proof.
  induction pre as [|x pre IH]; intros h post o row.
  - cbn [app mapHeaders fst snd]. apply mapHeaders_cons.
  - cbn [app]. rewrite (mapHeaders_cons x (pre ++ h :: post)), IH.
    rewrite (mapHeaders_cons x pre). done.
Qed.

Lemma mapHeaders_headers_length hs : forall o row,
  length (mapHeaders hs o row).1.1 = length hs.
Proof.
  induction hs as [|h hs IH]; intros o row; [done|].
  rewrite mapHeaders_cons. cbn [fst length]. by rewrite IH.
Qed.

(** The header at a place of a level, when no later header of the level
    ends with the same name: the record of the level holds, under the name
    the header ends with, what the mapper put there when it reached the
    header. *)
Lemma mapHeaders_binding pre h post o row h' :
  (mapHeaders (pre ++ h :: post) o row).1.1 !! length pre = Some h' ->
  name h' ∉ map name (drop (S (length pre)) (mapHeaders (pre ++ h :: post) o row).1.1) ->
  h' = (mapHeader h (mapHeaders pre o row).1.2 (drop (leafCounts pre) row)).1.1 /\
  JsObject.getOwn (mapHeaders (pre ++ h :: post) o row).1.2 (name h')
  = match subheaders h with
    | [] => if String.eqb (name h) "__proto__"
            then JsObject.getOwn (mapHeaders pre o row).1.2 (name h)
            else Some (valueAt row (leafCounts pre))
    | subs => Some (VObject (mapHeaders subs [] (drop (leafCounts pre) row)).1.2)
    end.
Proof.
  rewrite mapHeaders_split. cbn [fst snd]. rewrite mapHeaders_rest.
  set (o1 := (mapHeaders pre o row).1.2).
  set (r1 := drop (leafCounts pre) row).
  set (mid := mapHeader h o1 r1).
  pose proof (mapHeaders_headers_length pre o row) as Hlen.
  intros Hat Hlater.
  rewrite lookup_app_r in Hat by lia.
  replace (length pre - length (mapHeaders pre o row).1.1)%nat with 0%nat in Hat by lia.
  injection Hat as <-.
  rewrite drop_app_ge in Hlater by lia.
  replace (S (length pre) - length (mapHeaders pre o row).1.1)%nat with 1%nat in Hlater by lia.
  cbn [drop] in Hlater. rewrite drop_0 in Hlater.
  split; [done|].
  rewrite mapHeaders_frame by done. subst mid. rewrite mapHeader_binds.
  destruct (subheaders h); [|done].
  destruct (String.eqb (name h) "__proto__"); [done|].
  unfold valueAt, r1. by rewrite lookup_drop, Nat.add_0_r.
Qed.


(** ** Row mapper: a row that runs out, and what the record then holds *)




(** ** Row mapper: a header that spans several columns *)

Lemma mapHeaders_leaves_same hs : forall o row,
  Forall (fun h => subheaders h = []) hs -> (mapHeaders hs o row).1.1 = hs.
Proof.
  induction hs as [|[n r subs] hs IH]; intros o row Hleaf; [done|].
  apply Forall_cons in Hleaf as [Hh Hleaf]. simpl in Hh. subst subs.
  rewrite mapHeaders_cons, mapHeader_leaf. cbn [fst snd]. by rewrite IH.
Qed.

Lemma flat_binding hs row j h :
  Forall (fun h => subheaders h = []) hs ->
  hs !! j = Some h ->
  name h <> "__proto__" ->
  name h ∉ map name (drop (S j) hs) ->
  JsObject.getOwn (mapHeaders hs [] row).1.2 (name h) = Some (valueAt row j).
Proof.
  intros Hleaf Hj Hproto Hlater.
  assert (Hlen : length (take j hs) = j).
  { apply lookup_lt_Some in Hj. rewrite length_take. lia. }
  assert (Hsplit : hs = take j hs ++ h :: drop (S j) hs)
    by (symmetry; by apply take_drop_middle).
  assert (Hcount : leafCounts (take j hs) = j).
  { rewrite leafCounts_leaves; [done|]. by apply Forall_take. }
  assert (Hsame : (mapHeaders hs [] row).1.1 = hs) by (by apply mapHeaders_leaves_same).
  destruct (mapHeaders_binding (take j hs) h (drop (S j) hs) [] row h) as [_ Hget].
  - rewrite <- Hsplit, Hsame, Hlen. done.
  - rewrite <- Hsplit, Hsame, Hlen. done.
  - rewrite <- Hsplit, Hcount in Hget. rewrite Hget.
    rewrite Forall_forall in Hleaf.
    rewrite (Hleaf h) by (by eapply list_elem_of_lookup_2).
    destruct (String.eqb (name h) "__proto__") eqn:E; [|done].
    by apply String.eqb_eq in E.
Qed.

(** C9 (as amended).  Whether a header takes a value or holds a nested
    record depends on its subheaders alone.  Setting every
    [remainingSubheaders] of a header tree to zero changes neither the
    record nor what is left of the row; a header without subheaders takes
    exactly one value, whatever its span.  With a single header row,
    whatever column-spans its cells declare, the [j]-th header cell takes
    the [j]-th value of the row (its key holds it unless it is
    [__proto__], of the form [unlabelled_<i>], or the key of a later
    header too): the columns that a cell spans are not skipped, their
    values go to the header cells that follow, and the values past the
    number of header cells go to the [unlabelled_<i>] keys. *)
Theorem leaf_status_ignores_span :
  (forall (hs : list HeaderCell) (o : Obj) (row : list RowItem),
     mapHeaders (map eraseSpans hs) o row
     = (map eraseSpans (mapHeaders hs o row).1.1,
        (mapHeaders hs o row).1.2, (mapHeaders hs o row).2)) /\
  (forall (n : string) (span : Z) (o : Obj) (row : list RowItem),
     mapHeader (mkHeader n span []) o row
     = (mkHeader n span [],
        JsObject.set o n (match row with [] => VUndefined | x :: _ => valueOf x end),
        drop 1 row)) /\
  (forall (opts : Opts) (tr : list Cell) (row : list RowItem),
     let hs := buildHeaders [headerGroupOf opts tr] in
     hs = headerGroupOf opts tr /\
     (mapRowToHeaders hs row).2 = drop (length hs) row /\
     (forall i x, row !! (length hs + i)%nat = Some x ->
        JsObject.getOwn (mapRowToHeaders hs row).1.1 (unlabelled i) = Some (valueOf x)) /\
     (forall j h, hs !! j = Some h ->
        name h <> "__proto__" ->
        name h ∉ map name (drop (S j) hs) ->
        (forall i, name h <> unlabelled i) ->
        JsObject.getOwn (mapRowToHeaders hs row).1.1 (name h) = Some (valueAt row j))).
Proof.
  split; [|split].
  - intros hs o row. apply mapHeaders_eraseSpans_of, Forall_forall.
    intros h _. apply mapHeader_eraseSpans.
  - intros n span o row. rewrite mapHeader_leaf. by destruct row.
  - intros opts tr row hs.
    assert (Hhs : hs = headerGroupOf opts tr).
    { subst hs. unfold buildHeaders, absorbRows, combineGroups. simpl. apply app_nil_r. }
    split; [exact Hhs|].
    assert (Hleaf : Forall (fun h => subheaders h = []) hs).
    { rewrite Hhs. apply headerGroupOf_leaves. }
    assert (Hn : leafCounts hs = length hs) by (by apply leafCounts_leaves).
    split; [by rewrite mapRowToHeaders_rest, Hn|]. split.
    + intros i x Hi. apply mapRowToHeaders_unlabelled.
      by rewrite Hn, lookup_drop.
    + intros j h Hj Hproto Hlater Hunl.
      rewrite mapRowToHeaders_eq. cbn [fst].
      rewrite addUnlabelled_other by (intros i _; apply Hunl).
      by apply flat_binding.
Qed.

Lemma leaf_status_ignores_span_witness :
  JsObject.getOwn
    (mapRowToHeaders (buildHeaders [headerGroupOf defaultOpts spanningRow])
                     [Text "a1"; Text "a2"; Text "b"]).1.1
    "b"
  = Some (VString "a2").
Proof.
  refine (proj2 (proj2 (proj2 (proj2 (proj2 leaf_status_ignores_span) defaultOpts
                                 spanningRow [Text "a1"; Text "a2"; Text "b"])))
            1%nat (mkHeader "b" 0 []) eq_refl _ _ _).
  - discriminate.
  - compute_done.
  - intros i. unfold unlabelled. discriminate.
Defined.

(** C9 as stated fails.  Header cells [A] with [colspan] 2 and [B], and the
    row [a1], [a2], [b]: [a2], the value of the second column that [A]
    spans, goes to [B], and the one value under an [unlabelled_<i>] key is
    [b], the value of the column of [B]. *)
Lemma spanned_column_goes_to_next_header :
  (mapRowToHeaders (buildHeaders [headerGroupOf defaultOpts spanningRow])
                   [Text "a1"; Text "a2"; Text "b"]).1.1
  = [("a", VString "a1"); ("b", VString "a2"); ("unlabelled_0", VString "b")] /\
  JsObject.getOwn
    (mapRowToHeaders (buildHeaders [headerGroupOf defaultOpts spanningRow])
                     [Text "a1"; Text "a2"; Text "b"]).1.1
    (unlabelled 0)
  <> Some (VString "a2").
Proof. split; [vm_compute; reflexivity | vm_compute; discriminate]. Qed.

(** ** The parser on a table with one header row: every key of a record *)

Lemma NoDup_lookup_later {A} (l : list A) j x :
  NoDup l -> l !! j = Some x -> x ∉ drop (S j) l.
Proof.
  intros Hnd Hj. rewrite <- (take_drop_middle l j x Hj) in Hnd.
  apply NoDup_app in Hnd as (_ & _ & Hnd). by apply NoDup_cons in Hnd as [Hx _].
Qed.

Lemma flat_absent hs row k :
  Forall (fun h => subheaders h = []) hs ->
  k ∉ map name hs ->
  JsObject.getOwn (mapHeaders hs [] row).1.2 k = None.
Proof.
  intros Hleaf Hk. rewrite mapHeaders_frame; [done|].
  by rewrite mapHeaders_leaves_same.
Qed.

(** X14.  The common table: one header row whose [th] cells have
    pairwise distinct keys, none of them [__proto__] or of the form
    [unlabelled_<i>].  There is one record for every body row.  In the
    record of a row, the key of the [j]-th header cell holds the trimmed
    text of the [j]-th cell of the row ([undefined] where the row is too
    short), the key [unlabelled_<i>] holds the text of the [i]-th cell
    past the header cells, and the record has no other key.  (The
    statement is key by key; it says nothing of the order in which the
    keys of a record are enumerated.) *)
Theorem one_header_row_table (opts : Opts) (t : Table) (hr : list Cell) :
  headerRows t = [hr] ->
  NoDup (headerNamesOf opts hr) ->
  "__proto__" ∉ headerNamesOf opts hr ->
  (forall i, unlabelled i ∉ headerNamesOf opts hr) ->
  length (parseTable opts t) = length (getRows t) /\
  forall (r : nat) (texts : list string),
    getRows t !! r = Some texts ->
    exists record : Obj,
      parseTable opts t !! r = Some record /\
      (forall j key, headerNamesOf opts hr !! j = Some key ->
         JsObject.getOwn record key = Some (valueAt (map Text texts) j)) /\
      (forall i s, texts !! (length (headerNamesOf opts hr) + i)%nat = Some s ->
         JsObject.getOwn record (unlabelled i) = Some (VString s)) /\
      (forall k, k ∉ headerNamesOf opts hr ->
         (forall i, (length (headerNamesOf opts hr) + i < length texts)%nat ->
                    k <> unlabelled i) ->
         JsObject.getOwn record k = None).
Proof.
  intros Hrows Hnd Hproto Hunl.
  set (hs := headerGroupOf opts hr).
  assert (Hnames : map name hs = headerNamesOf opts hr) by apply headerGroupOf_name.
  assert (Hleaf : Forall (fun h => subheaders h = []) hs) by apply headerGroupOf_leaves.
  assert (Hlen : length (headerNamesOf opts hr) = length hs)
    by (by rewrite <- Hnames, length_map).
  assert (Hcount : leafCounts hs = length hs) by (by apply leafCounts_leaves).
  assert (Hh : getHeaders opts t = hs).
  { unfold getHeaders. rewrite Hrows. cbn. apply app_nil_r. }
  assert (Hparse : parseTable opts t
                   = map (fun texts => (mapRowToHeaders hs (map Text texts)).1.1)
                         (getRows t)).
  { unfold parseTable. rewrite Hh, mapRowsToHeaders_unchanged.
    - by rewrite <- list_fmap_compose.
    - intros row. apply mapRowToHeaders_plain, leaves_plainForest; [done|].
      by rewrite Hnames. }
  rewrite Hparse. split; [by rewrite length_map|].
  intros r texts Hr. exists (mapRowToHeaders hs (map Text texts)).1.1.
  split; [by rewrite list_lookup_fmap, Hr|]. split; [|split].
  - intros j key Hj. rewrite <- Hnames in Hj.
    apply list_lookup_fmap_Some_1 in Hj as (h & -> & Hj).
    rewrite mapRowToHeaders_eq. cbn [fst].
    rewrite addUnlabelled_other.
    + apply flat_binding; [done|done| |].
      * intros E. apply Hproto. rewrite <- Hnames, <- E.
        apply list_elem_of_fmap_2. by eapply list_elem_of_lookup_2.
      * change (map name (drop (S j) hs)) with (name <$> drop (S j) hs).
        rewrite fmap_drop. apply NoDup_lookup_later.
        { change (name <$> hs) with (map name hs). by rewrite Hnames. }
        by rewrite list_lookup_fmap, Hj.
    + intros i _ E. apply (Hunl (0 + i)%nat). rewrite <- Hnames, <- E.
      apply list_elem_of_fmap_2. by eapply list_elem_of_lookup_2.
  - intros i s Hi. change (VString s) with (valueOf (Text s)).
    apply mapRowToHeaders_unlabelled.
    rewrite Hcount, lookup_drop, <- Hlen, list_lookup_fmap, Hi. done.
  - intros k Hk Hother. rewrite mapRowToHeaders_eq. cbn [fst].
    rewrite addUnlabelled_other.
    + apply flat_absent; [done|by rewrite Hnames].
    + intros i Hi. apply Hother.
      rewrite mapHeaders_rest, length_drop, length_map, Hcount in Hi. lia.
Qed.

Lemma one_header_row_table_witness :
  exists record : Obj,
    parseTable defaultOpts
      [ mkSection THead [[mkCell TH "Name" None; mkCell TH "2020" None;
                          mkCell TH "2019" None]];
        mkSection TBody [[mkCell TD " Ann " None; mkCell TD "41" None;
                          mkCell TD "40" None; mkCell TD "x" None]] ] !! 0%nat
    = Some record /\
    JsObject.getOwn record "name" = Some (VString "Ann") /\
    JsObject.getOwn record "2020" = Some (VString "41") /\
    JsObject.getOwn record "2019" = Some (VString "40") /\
    JsObject.getOwn record "unlabelled_0" = Some (VString "x") /\
    JsObject.getOwn record "age" = None.
Proof.
  destruct (proj2 (one_header_row_table defaultOpts
             [ mkSection THead [[mkCell TH "Name" None; mkCell TH "2020" None;
                                 mkCell TH "2019" None]];
               mkSection TBody [[mkCell TD " Ann " None; mkCell TD "41" None;
                                 mkCell TD "40" None; mkCell TD "x" None]] ]
             [mkCell TH "Name" None; mkCell TH "2020" None; mkCell TH "2019" None]
             eq_refl ltac:(compute_done) ltac:(compute_done)
             ltac:(intros i;
                   change (headerNamesOf defaultOpts _) with ["name"; "2020"; "2019"];
                   unfold unlabelled;
                   intros [E|[E|[E|E]%elem_of_cons]%elem_of_cons]%elem_of_cons;
                   [discriminate E..|by apply elem_of_nil in E]))
           0%nat ["Ann"; "41"; "40"; "x"] eq_refl)
    as (record & Hrec & Hkeys & Hrest & Hnone).
  exists record. split; [exact Hrec|].
  split; [exact (Hkeys 0%nat "name" eq_refl)|].
  split; [exact (Hkeys 1%nat "2020" eq_refl)|].
  split; [exact (Hkeys 2%nat "2019" eq_refl)|].
  split; [exact (Hrest 0%nat "x" eq_refl)|].
  apply Hnone.
  - compute_done.
  - intros i Hi. assert (i = 0%nat) as -> by (simpl in Hi; lia). discriminate.
Defined.

(** ** Row mapper: the record of a tree with plain names, path by path *)

Lemma leafPathsOf_leaf n r : leafPathsOf (mkHeader n r []) = [[n]].
Proof. reflexivity. Qed.

Lemma leafPathsOf_node n r s ss :
  leafPathsOf (mkHeader n r (s :: ss)) = map (cons n) (leafPaths (s :: ss)).
Proof. reflexivity. Qed.

Lemma leafPaths_cons h hs : leafPaths (h :: hs) = leafPathsOf h ++ leafPaths hs.
Proof. reflexivity. Qed.

Lemma leafPaths_length_of (P := fun h => length (leafPathsOf h) = leafCount h) hs :
  Forall P hs -> length (leafPaths hs) = leafCounts hs.
Proof.
  induction 1 as [|h hs Hh _ IH]; [done|].
  rewrite leafPaths_cons, length_app. cbn [leafCounts]. by rewrite Hh, IH.
Qed.

Lemma leafPathsOf_length h : length (leafPathsOf h) = leafCount h.
Proof.
  induction h as [n r subs IH] using header_ind. destruct subs as [|s ss]; [done|].
  rewrite leafPathsOf_node, leafCount_node, length_map.
  by apply leafPaths_length_of.
Qed.

Lemma leafPaths_length hs : length (leafPaths hs) = leafCounts hs.
Proof. apply leafPaths_length_of, Forall_forall. intros h _. apply leafPathsOf_length. Qed.

(** Every path starts at the name of its root. *)
Lemma leafPathsOf_head h p : p ∈ leafPathsOf h -> exists q, p = name h :: q.
Proof.
  destruct h as [n r [|s ss]].
  - rewrite leafPathsOf_leaf. intros ->%list_elem_of_singleton. by exists [].
  - rewrite leafPathsOf_node. intros (q & -> & _)%list_elem_of_fmap. by exists q.
Qed.

Lemma leafPaths_head hs p :
  p ∈ leafPaths hs -> exists h q, h ∈ hs /\ p = name h :: q.
Proof.
  unfold leafPaths. intros Hp. apply list_elem_of_In, in_flat_map in Hp as (h & Hh & Hp).
  apply list_elem_of_In in Hh, Hp. apply leafPathsOf_head in Hp as [q ->].
  by exists h, q.
Qed.

(** Reading a path looks at the record through its first key only. *)
Lemma lookupPath_ext o o' k q :
  JsObject.getOwn o k = JsObject.getOwn o' k ->
  lookupPath o (k :: q) = lookupPath o' (k :: q).
Proof. intros E. cbn [lookupPath]. by rewrite E. Qed.

Lemma lookupPath_nested o k nested q :
  q <> [] -> JsObject.getOwn o k = Some (VObject nested) ->
  lookupPath o (k :: q) = lookupPath nested q.
Proof.
  intros Hq E. destruct q as [|k' q]; [done|].
  change (lookupPath o (k :: k' :: q))
    with (match JsObject.getOwn o k with
          | Some (VObject nested) => lookupPath nested (k' :: q)
          | _ => None
          end).
  by rewrite E.
Qed.

Lemma getOwn_head k v o : JsObject.getOwn ((k, v) :: o) k = Some v.
Proof. cbn [JsObject.getOwn]. by rewrite String.eqb_refl. Qed.

Lemma getOwn_tail k k' v o :
  k <> k' -> JsObject.getOwn ((k', v) :: o) k = JsObject.getOwn o k.
Proof.
  intros Hne. cbn [JsObject.getOwn].
  destruct (String.eqb k k') eqn:E; [by apply String.eqb_eq in E|done].
Qed.

Lemma plainLevel_NoDup hs : plainLevel hs = true -> NoDup (map name hs).
Proof.
  unfold plainLevel. intros [Hnd _]%andb_true_iff. by apply bool_decide_eq_true_1 in Hnd.
Qed.

Lemma recordEntries_paths_of (P := fun h =>
    plainTree h = true ->
    forall (o : Obj) (row : list RowItem) (i : nat) (p : list string),
      JsObject.getOwn o (name h) = Some (recordEntry h row).2 ->
      leafPathsOf h !! i = Some p ->
      lookupPath o p = Some (valueAt row i)) hs :
  Forall P hs ->
  NoDup (map name hs) ->
  forallb plainTree hs = true ->
  forall (row : list RowItem) (i : nat) (p : list string),
    leafPaths hs !! i = Some p ->
    lookupPath (recordEntries hs row) p = Some (valueAt row i).
Proof.
  induction 1 as [|h hs Hh _ IH]; intros Hnd Htrees row i p Hp; [done|].
  cbn [map] in Hnd. apply NoDup_cons in Hnd as [Hfirst Hnd].
  cbn [forallb] in Htrees. apply andb_true_iff in Htrees as [Htree Htrees].
  rewrite leafPaths_cons in Hp. cbn [recordEntries].
  destruct (decide (i < length (leafPathsOf h))%nat) as [Hi|Hi].
  - rewrite lookup_app_l in Hp by done.
    apply (Hh Htree _ row i p); [|done].
    rewrite (surjective_pairing (recordEntry h row)), recordEntry_fst.
    apply getOwn_head.
  - rewrite lookup_app_r in Hp by lia.
    destruct (leafPaths_head hs p) as (h' & q & Hh' & ->);
      [by eapply list_elem_of_lookup_2|].
    rewrite (surjective_pairing (recordEntry h row)), recordEntry_fst.
    rewrite (lookupPath_ext _ (recordEntries hs (drop (leafCount h) row))).
    + rewrite (IH Hnd Htrees _ _ _ Hp). f_equal. unfold valueAt.
      rewrite lookup_drop, leafPathsOf_length. rewrite leafPathsOf_length in Hi.
      by replace (leafCount h + (i - leafCount h))%nat with i by lia.
    + apply getOwn_tail. intros E. apply Hfirst. rewrite <- E.
      by apply list_elem_of_fmap_2.
Qed.

Lemma recordEntry_paths h :
  plainTree h = true ->
  forall (o : Obj) (row : list RowItem) (i : nat) (p : list string),
    JsObject.getOwn o (name h) = Some (recordEntry h row).2 ->
    leafPathsOf h !! i = Some p ->
    lookupPath o p = Some (valueAt row i).
Proof.
  induction h as [n r subs IH] using header_ind.
  intros Htree o row i p Hget Hp. cbn [name] in Hget.
  destruct subs as [|s ss].
  - rewrite leafPathsOf_leaf in Hp. destruct i as [|i]; [|done].
    injection Hp as <-. by rewrite recordEntry_leaf in Hget.
  - rewrite leafPathsOf_node in Hp. rewrite recordEntry_node in Hget. cbn [snd] in Hget.
    apply list_lookup_fmap_Some_1 in Hp as (q & -> & Hq).
    rewrite plainTree_eq in Htree. apply andb_true_iff in Htree as [Hlevel Htrees].
    assert (Hne : q <> []).
    { destruct (leafPaths_head (s :: ss) q) as (? & ? & _ & ->);
        [by eapply list_elem_of_lookup_2|done]. }
    rewrite (lookupPath_nested _ _ _ _ Hne Hget).
    apply (recordEntries_paths_of (s :: ss)); [done|by apply plainLevel_NoDup|done..].
Qed.

Lemma recordEntries_paths hs row i p :
  plainForest hs = true ->
  leafPaths hs !! i = Some p ->
  lookupPath (recordEntries hs row) p = Some (valueAt row i).
Proof.
  unfold plainForest. intros [Hlevel Htrees]%andb_true_iff Hp.
  apply recordEntries_paths_of; [|by apply plainLevel_NoDup|done..].
  apply Forall_forall. intros h _. apply recordEntry_paths.
Qed.

Lemma recordEntries_keys hs : forall row, map fst (recordEntries hs row) = map name hs.
Proof.
  induction hs as [|h hs IH]; intros row; [done|].
  cbn [recordEntries map]. by rewrite IH, recordEntry_fst.
Qed.

(** X15.  A header tree in which the names of sibling headers differ, no
    header that has subheaders bears a name that every object inherits,
    no header is named [__proto__] and no root has a name of the form
    [unlabelled_<i>]: the record mirrors the tree.  Mapping a row leaves
    the headers as they are.  Count the headers without subheaders
    through the tree from the left: reading the record along the names
    from a root down to the [i]-th of them gives the [i]-th value of the
    row ([undefined] past the end of the row).  The key [unlabelled_<i>]
    holds the [i]-th of the values that are left, and the record has no
    key besides the names of the roots and these.  (The statement is path
    by path; it says nothing of the order in which the keys of a record
    are enumerated.) *)
Theorem plain_headers_record (hs : list HeaderCell) (row : list RowItem) :
  plainForest hs = true ->
  forallb (namesAvoid "__proto__") hs = true ->
  (forall i, unlabelled i ∉ map name hs) ->
  (mapRowToHeaders hs row).1.2 = hs /\
  (mapRowToHeaders hs row).2 = drop (leafCounts hs) row /\
  length (leafPaths hs) = leafCounts hs /\
  (forall i p, leafPaths hs !! i = Some p ->
     lookupPath (mapRowToHeaders hs row).1.1 p = Some (valueAt row i)) /\
  (forall i x, row !! (leafCounts hs + i)%nat = Some x ->
     JsObject.getOwn (mapRowToHeaders hs row).1.1 (unlabelled i) = Some (valueOf x)) /\
  (forall k, k ∉ map name hs ->
     (forall i, (leafCounts hs + i < length row)%nat -> k <> unlabelled i) ->
     JsObject.getOwn (mapRowToHeaders hs row).1.1 k = None).
Proof.
  intros Hplain Havoid Hunl.
  assert (Hmirror : mapHeaders hs [] row
                    = (hs, recordEntries hs row, drop (leafCounts hs) row)).
  { pose proof Hplain as Hp. unfold plainForest in Hp.
    apply andb_true_iff in Hp as [Hlevel Htrees].
    rewrite (mapHeaders_mirror_of hs); [done| |done..].
    apply Forall_forall. intros h _. apply mapHeader_mirror. }
  split; [by rewrite mapRowToHeaders_eq, Hmirror|].
  split; [apply mapRowToHeaders_rest|].
  split; [apply leafPaths_length|].
  split; [|split].
  - intros i p Hp.
    destruct (leafPaths_head hs p) as (h & q & Hh & ->);
      [by eapply list_elem_of_lookup_2|].
    rewrite mapRowToHeaders_eq, Hmirror. cbn [fst snd].
    rewrite (lookupPath_ext _ (recordEntries hs row)).
    + by apply recordEntries_paths.
    + apply addUnlabelled_other. intros j _ E. apply (Hunl (0 + j)%nat).
      rewrite <- E. by apply list_elem_of_fmap_2.
  - intros i x Hi. apply mapRowToHeaders_unlabelled. by rewrite lookup_drop.
  - intros k Hk Hother. rewrite mapRowToHeaders_eq, Hmirror. cbn [fst snd].
    rewrite addUnlabelled_other.
    + apply getOwn_absent. by rewrite recordEntries_keys.
    + intros j Hj. apply Hother. rewrite length_drop in Hj. lia.
Qed.

Lemma plain_headers_record_witness :
  lookupPath
    (mapRowToHeaders
       (buildHeaders (map declared [ [("2020", 2); ("n", 0)]; [("b", 0); ("c", 0)] ]))
       [Text "1"; Text "2"; Text "3"; Text "4"]).1.1
    ["2020"; "c"]
  = Some (VString "2").
Proof.
  refine (proj1 (proj2 (proj2 (proj2 (plain_headers_record
            (buildHeaders (map declared [ [("2020", 2); ("n", 0)]; [("b", 0); ("c", 0)] ]))
            [Text "1"; Text "2"; Text "3"; Text "4"] _ _ _))))
            1%nat ["2020"; "c"] eq_refl).
  - vm_compute. reflexivity.
  - vm_compute. reflexivity.
  - intros i. change (map name (buildHeaders
                        (map declared [ [("2020", 2); ("n", 0)]; [("b", 0); ("c", 0)] ])))
      with ["2020"; "n"].
    unfold unlabelled.
    intros [E|[E|E]%elem_of_cons]%elem_of_cons; [discriminate E|discriminate E|].
    by apply elem_of_nil in E.
Defined.
